(** * Tivoli wheel (src/App.tsx): partition, spin and winner resolution

    A shallow embedding of the [TivoliWheel] component of [src/App.tsx]:
    the slices drawn by [createWheel], the winner computed by
    [getWinningItem] and the animation driven by [spin] / [animate].

    Arithmetic.  JavaScript numbers are IEEE-754 binary64 doubles, and
    the angles of [createWheel] and [getWinningItem] are rounded at every
    operation.  The file has the arithmetic of the source twice:

    - [Module Double] is the source's own arithmetic: the primitive
      binary64 floats of the kernel, with [%] and [Math.floor] computed
      exactly from mantissa and exponent as IEEE-754 defines them.  What
      is said about angles, borders and winners of particular rotations
      is said there, and is checked by evaluation.

    - The definitions outside of [Double] read the same expressions over
      the real numbers: [Math.PI] is [PI], [/] is real division,
      [Math.floor] is the integer floor, [Math.pow (x, 3)] is [x ^ 3],
      [Math.min] is [Rmin] and [%] is the truncated remainder.  This
      exact reading carries the state machine of the component and the
      statements that do not depend on rounding (guards, ranges, the
      shape of the easing); it does not say which slice wins when a
      border is within rounding distance of the pointer.

    [NaN] and the infinities are values of [Double] only.  [Date.now ()]
    is an integer number of milliseconds supplied by the environment and
    [Math.random ()] a number supplied by the environment. *)

From Stdlib Require Import PrimFloat SpecFloat FloatOps.
From Stdlib Require Import Reals Zfloor Lra Lia ZArith Bool String List.
Import ListNotations.

#[local] Open Scope string_scope.

#[local] Open Scope R_scope.

(** ** JavaScript arithmetic over the reals *)

Module JS.

(** Truncation toward zero, the quotient that [%] uses. *)
Definition trunc (x : R) : Z :=
  if Rle_dec 0 x then Zfloor x else Zceil x.

(** [x % y] on numbers: [x - y * trunc (x / y)]. *)
Definition rem (x y : R) : R := x - y * IZR (trunc (x / y)).

(** [Math.floor]. *)
Definition floor (x : R) : Z := Zfloor x.

(** [Math.min]. *)
Definition min (x y : R) : R := Rmin x y.

(** [Math.pow (x, n)] for a literal natural exponent. *)
Definition pow (x : R) (n : nat) : R := x ^ n.

(** Completion of a call: it returns, or it throws. *)
Inductive error : Type :=
| TypeError.

Inductive completion : Type :=
| Normal
| Throw (e : error).

End JS.

Infix "%%" := JS.rem (at level 40, left associativity) : R_scope.

(** ** Data *)

(** [interface Recipe { name: string }] *)
Record Recipe : Type := mkRecipe { name : string }.

(** [const COLORS = [...]] *)
Definition COLORS : list Z :=
  [ 0xFF6B6B; 0x4ECDC4; 0x45B7D1; 0xFFA07A; 0x98D8C8;
    0xF67280; 0xC06C84; 0x6C5B7B; 0x355C7D; 0xF8B195 ]%Z.

(** [arr[i]] for a non-negative integer index: [None] is [undefined]. *)
Definition lookup {A : Type} (arr : list A) (i : nat) : option A :=
  nth_error arr i.

(** [arr[z]] for an integer-valued number: a negative index is not an
    element of the array. *)
Definition indexZ {A : Type} (arr : list A) (z : Z) : option A :=
  if (z <? 0)%Z then None else lookup arr (Z.to_nat z).

(** [index % paletteSize] on non-negative integers: [None] is the [NaN]
    of a remainder by 0. *)
Definition paletteIndex (idx paletteSize : nat) : option nat :=
  if (paletteSize =? 0)%nat then None else Some (Nat.modulo idx paletteSize).

(** [palette[index % palette.length]], the fill of slice [index] in
    [createWheel]; [palette[NaN]] is [undefined]. *)
Definition sliceColor (palette : list Z) (idx : nat) : option Z :=
  match paletteIndex idx (length palette) with
  | None => None
  | Some k => lookup palette k
  end.

(** ** createWheel: the slices *)

(** The angles here are the exact reading of the source's expressions;
    the doubles the source computes are [Double.startAngle],
    [Double.endAngle] and [Double.drawArc] below.  What this file says
    about the angles of the slices is said there. *)

Definition radius : R := 200.
Definition centerX : R := 250.
Definition centerY : R := 250.

(** [const startAngle = (index / recipes.length) * Math.PI * 2] *)
Definition startAngle (idx n : nat) : R := (INR idx / INR n) * PI * 2.

(** [const endAngle = ((index + 1) / recipes.length) * Math.PI * 2] *)
Definition endAngle (idx n : nat) : R := (INR (idx + 1) / INR n) * PI * 2.

(** One [sliceContainer]: the filled arc and its text. *)
Record Slice : Type := mkSlice {
  fill : option Z;
  arcStart : R;
  arcEnd : R;
  text : string;
  textX : R;
  textY : R
}.

(** The body of the [forEach] callback. *)
Definition drawSlice (n : nat) (recipe : Recipe) (idx : nat) : Slice :=
  let startAngle := startAngle idx n in
  let endAngle := endAngle idx n in
  {| fill := sliceColor COLORS idx;
     arcStart := startAngle;
     arcEnd := endAngle;
     text := name recipe;
     textX := cos ((startAngle + endAngle) / 2) * (radius / 2);
     textY := sin ((startAngle + endAngle) / 2) * (radius / 2) |}.

(** [recipes.forEach ((recipe, index) => ...)], from position [idx] on;
    [n] is [recipes.length] of the whole array. *)
Fixpoint forEachFrom (n idx : nat) (rs : list Recipe) : list Slice :=
  match rs with
  | [] => []
  | recipe :: rest => drawSlice n recipe idx :: forEachFrom n (S idx) rest
  end.

(** The [PIXI.Container] of the wheel: its children and its rotation. *)
Record Wheel : Type := mkWheel {
  slices : list Slice;
  wheelX : R;
  wheelY : R;
  rotation : R
}.

(** ** getWinningItem *)

(** The exact reading again; [Double.normalizedRotation],
    [Double.slicesFromTop], [Double.winningIndex] and
    [Double.getWinningItem] below are the same expressions on doubles.
    The exact reading gives the range of the index and the winner of the
    state machine's statements; which slice wins at a particular
    rotation is settled on the doubles. *)

(** [(finalRotation % (Math.PI * 2) + Math.PI * 2) % (Math.PI * 2)] *)
Definition normalizedRotation (finalRotation : R) : R :=
  (finalRotation %% (PI * 2) + PI * 2) %% (PI * 2).

(** [(Math.PI * 2) / recipes.length] *)
Definition sliceAngle (n : nat) : R := (PI * 2) / INR n.

(** [3 * Math.PI / 2] *)
Definition topPosition : R := 3 * PI / 2.

(** [Math.floor (((topPosition - normalizedRotation + Math.PI * 2)
                  % (Math.PI * 2)) / sliceAngle)] *)
Definition slicesFromTop (finalRotation : R) (n : nat) : Z :=
  JS.floor (((topPosition - normalizedRotation finalRotation + PI * 2)
             %% (PI * 2)) / sliceAngle n).

(** [slicesFromTop % recipes.length]: both operands are integers, the
    remainder is the truncated one. *)
Definition winningIndex (finalRotation : R) (n : nat) : Z :=
  Z.rem (slicesFromTop finalRotation n) (Z.of_nat n).

(** What a call of [getWinningItem] produces: [null], a name, or the
    [TypeError] of reading [.name] of [undefined]. *)
Inductive Winner : Type :=
| Null
| Name (s : string)
| Raised (e : JS.error).

Definition getWinningItem (recipes : list Recipe) (finalRotation : R)
  : Winner :=
  match recipes with
  | [] => Null
  | _ :: _ =>
      match indexZ recipes (winningIndex finalRotation (length recipes)) with
      | Some recipe => Name (name recipe)
      | None => Raised JS.TypeError
      end
  end.

(** ** The component: refs, React state and pending animation frames *)

(** The closure of one [animate]: the [startTime] and [maxRotations]
    captured when [spin] started it. *)
Record Animation : Type := mkAnimation {
  startTime : Z;
  maxRotations : R
}.

(** [appRef], [wheelContainerRef] and [tickerRef]; the number of ticker
    graphics on the stage; the state [winningItem] and [isSpinning]; and
    the callbacks handed to [requestAnimationFrame], oldest first.

    [animate] rotates the wheel that [spin] captured; that is the wheel
    of [wheelContainerRef] as long as [createWheel] does not run during
    a spin, which is the case for a fixed [recipes] array.  [spin] reads
    the [isSpinning] of the latest render. *)
Record Component : Type := mkComponent {
  appRef : bool;
  wheelContainerRef : option Wheel;
  tickerRef : bool;
  stageTickers : nat;
  winningItem : option string;
  isSpinning : bool;
  frames : list Animation
}.

Definition setWheel (w : option Wheel) (c : Component) : Component :=
  mkComponent (appRef c) w (tickerRef c) (stageTickers c)
              (winningItem c) (isSpinning c) (frames c).

Definition addTicker (c : Component) : Component :=
  mkComponent (appRef c) (wheelContainerRef c) true (S (stageTickers c))
              (winningItem c) (isSpinning c) (frames c).

Definition setWinningItem (w : option string) (c : Component) : Component :=
  mkComponent (appRef c) (wheelContainerRef c) (tickerRef c) (stageTickers c)
              w (isSpinning c) (frames c).

Definition setIsSpinning (b : bool) (c : Component) : Component :=
  mkComponent (appRef c) (wheelContainerRef c) (tickerRef c) (stageTickers c)
              (winningItem c) b (frames c).

Definition setFrames (fs : list Animation) (c : Component) : Component :=
  mkComponent (appRef c) (wheelContainerRef c) (tickerRef c) (stageTickers c)
              (winningItem c) (isSpinning c) fs.

(** [requestAnimationFrame (animate)] *)
Definition requestAnimationFrame (a : Animation) (c : Component) : Component :=
  setFrames (frames c ++ [a]) c.

(** [wheel.rotation = rotation] *)
Definition setRotation (r : R) (c : Component) : Component :=
  match wheelContainerRef c with
  | Some w => setWheel (Some (mkWheel (slices w) (wheelX w) (wheelY w) r)) c
  | None => c
  end.

Definition wheelRotation (c : Component) : option R :=
  option_map rotation (wheelContainerRef c).

(** [createWheel]: nothing is drawn without an application or with fewer
    than 2 or more than 100 recipes; otherwise the old wheel is removed
    from the stage, a new wheel takes its place in [wheelContainerRef],
    and one more ticker is added to the stage.  The call returns in
    either case. *)
Definition createWheel (recipes : list Recipe) (c : Component)
  : Component * JS.completion :=
  if negb (appRef c) || (length recipes <? 2)%nat || (100 <? length recipes)%nat
  then (c, JS.Normal)
  else
    let wheel :=
      {| slices := forEachFrom (length recipes) 0 recipes;
         wheelX := centerX;
         wheelY := centerY;
         rotation := 0 |} in
    (addTicker (setWheel (Some wheel) c), JS.Normal).

(** ** spin and animate *)

(** [const spinDuration = 10000] *)
Definition spinDuration : R := 10000.

(** [const easeOut = (t) => 1 - Math.pow (1 - t, 3)] *)
Definition easeOut (t : R) : R := 1 - JS.pow (1 - t) 3.

(** [Math.min (elapsedTime / spinDuration, 1)] at [Date.now () = now]. *)
Definition progress (a : Animation) (now : Z) : R :=
  let elapsedTime := (now - startTime a)%Z in
  JS.min (IZR elapsedTime / spinDuration) 1.

(** [maxRotations * Math.PI * 2 * easeOut (progress)] *)
Definition rotationAt (a : Animation) (now : Z) : R :=
  maxRotations a * PI * 2 * easeOut (progress a now).

(** One run of [animate] with [Date.now () = now]. *)
Definition animate (recipes : list Recipe) (a : Animation) (now : Z)
  (c : Component) : Component * JS.completion :=
  let rotation := rotationAt a now in
  let c := setRotation rotation c in
  if Rlt_dec (progress a now) 1
  then (requestAnimationFrame a c, JS.Normal)
  else
    match getWinningItem recipes rotation with
    | Raised e => (c, JS.Throw e)
    | Null => (setIsSpinning false (setWinningItem None c), JS.Normal)
    | Name winner =>
        (setIsSpinning false (setWinningItem (Some winner) c), JS.Normal)
    end.

(** [spin]: [random] is the value of [Math.random ()], [now0] the
    [Date.now ()] stored in [startTime] and [now1] the [Date.now ()] read
    by the first run of [animate]. *)
Definition spin (recipes : list Recipe) (random : R) (now0 now1 : Z)
  (c : Component) : Component * JS.completion :=
  match wheelContainerRef c with
  | None => (c, JS.Normal)
  | Some _ =>
      if negb (tickerRef c) || (length recipes =? 0)%nat || isSpinning c
      then (c, JS.Normal)
      else
        let c := setWinningItem None (setIsSpinning true c) in
        let a := {| startTime := now0; maxRotations := 10 + random |} in
        animate recipes a now1 c
  end.

(** What happens to the component: the button is clicked, or the browser
    runs the oldest pending animation frame. *)
Inductive event : Type :=
| Click (random : R) (now0 now1 : Z)
| Frame (now : Z).

Definition handle (recipes : list Recipe) (e : event) (c : Component)
  : Component * JS.completion :=
  match e with
  | Click random now0 now1 => spin recipes random now0 now1 c
  | Frame now =>
      match frames c with
      | [] => (c, JS.Normal)
      | a :: rest => animate recipes a now (setFrames rest c)
      end
  end.

Definition step (recipes : list Recipe) (e : event) (c : Component)
  : Component :=
  fst (handle recipes e c).

(** The component once the first effect has created the application:
    [useRef (null)] for the wheel and the ticker, [useState (null)] and
    [useState (false)]. *)
Definition created : Component :=
  {| appRef := true;
     wheelContainerRef := None;
     tickerRef := false;
     stageTickers := 0;
     winningItem := None;
     isSpinning := false;
     frames := [] |}.

(** After the second effect: [createWheel] has run once. *)
Definition mounted (recipes : list Recipe) : Component :=
  fst (createWheel recipes created).

(** The components that events lead to from the mounted one. *)
Inductive reachable (recipes : list Recipe) : Component -> Prop :=
| reachable_mounted : reachable recipes (mounted recipes)
| reachable_step (e : event) (c : Component) :
    reachable recipes c -> reachable recipes (step recipes e c).

(** The wheel and the ticker exist, and [isSpinning] holds exactly when
    one animation frame is pending. *)
Definition consistent (c : Component) : Prop :=
  wheelContainerRef c <> None /\
  tickerRef c = true /\
  ((isSpinning c = false /\ frames c = []) \/
   (isSpinning c = true /\ exists a, frames c = [a])).

(** ** The spec's vocabulary, for comparison with the source *)

(** The sectors of [partition] are the slices of the wheel that
    [createWheel] leaves in [wheelContainerRef]. *)
Definition sectors (recipes : list Recipe) : list Slice :=
  match wheelContainerRef (mounted recipes) with
  | Some w => slices w
  | None => []
  end.

(** The angle of the wheel under the pointer: the dividend of
    [slicesFromTop], before the division by [sliceAngle]. *)
Definition pointed (finalRotation : R) : R :=
  (topPosition - normalizedRotation finalRotation + PI * 2) %% (PI * 2).

(** The recipes [WheelPage] starts with. *)
Definition wheelPageRecipes : list Recipe :=
  [ mkRecipe "Pizza"; mkRecipe "Pasta"; mkRecipe "Salad";
    mkRecipe "Soup"; mkRecipe "Steak" ].

(** The labels [A, B, C, D] of the spec's worked example. *)
Definition labelsABCD : list Recipe :=
  [ mkRecipe "A"; mkRecipe "B"; mkRecipe "C"; mkRecipe "D" ].

(** [clamp (x, lo, hi)] as the spec writes the progress. *)
Definition clamp (x lo hi : R) : R := Rmax lo (Rmin x hi).

(** [clamp ((now - startTime) / durationMs, 0, 1)] *)
Definition clampedProgress (a : Animation) (now : Z) : R :=
  clamp (IZR (now - startTime a) / spinDuration) 0 1.

(** ** The source's own arithmetic: binary64 *)

Module Double.

(** [Math.PI], the double nearest to pi. *)
Definition PI : float := 0x1.921fb54442d18p+1.

(** An array length or an index as a number; both are below [2 ^ 32],
    where the conversion of an integer is exact. *)
Definition ofNat (n : nat) : float :=
  of_uint63 (Uint63Axioms.of_Z (Z.of_nat n)).

(** [x % y] on numbers.  [NaN] when an operand is [NaN], the dividend is
    infinite or the divisor is zero; the dividend itself when it is zero
    or the divisor is infinite; otherwise the dividend minus the divisor
    times the truncated quotient, which is a double and takes the sign
    of the dividend, also when it is zero.  With both operands written
    on the smaller of the two exponents it is the remainder of the
    integers. *)
Definition rem (x y : float) : float :=
  match Prim2SF x, Prim2SF y with
  | S754_nan, _ | _, S754_nan => nan
  | S754_infinity _, _ => nan
  | _, S754_zero _ => nan
  | S754_zero _, _ => x
  | _, S754_infinity _ => x
  | S754_finite sx mx ex, S754_finite _ my ey =>
      let e := Z.min ex ey in
      let n := Z.shiftl (Zpos mx) (ex - e) in
      let d := Z.shiftl (Zpos my) (ey - e) in
      let r := Z.rem n d in
      SF2Prim (binary_normalize prec emax (if sx then Z.opp r else r) e sx)
  end.

(** [Math.floor]: [NaN], the zeros and the infinities are returned as
    they are, and so is a double without fractional bits; otherwise the
    mantissa is shifted down, towards minus infinity. *)
Definition floor (x : float) : float :=
  match Prim2SF x with
  | S754_finite s m e =>
      if (0 <=? e)%Z then x
      else
        let q := Z.shiftr (if s then Zneg m else Zpos m) (- e) in
        SF2Prim (binary_normalize prec emax q 0 s)
  | _ => x
  end.

(** The element a number selects in [arr[x]]: a zero or a positive
    integer-valued double selects that position, every other number
    ([NaN], a negative number, a fraction) is a key no array has. *)
Definition toIndex (x : float) : option nat :=
  match Prim2SF x with
  | S754_zero _ => Some 0%nat
  | S754_finite false m e =>
      if (0 <=? e)%Z then Some (Z.to_nat (Z.shiftl (Zpos m) e))
      else if (Z.shiftl (Z.shiftr (Zpos m) (- e)) (- e) =? Zpos m)%Z
           then Some (Z.to_nat (Z.shiftr (Zpos m) (- e)))
           else None
  | _ => None
  end.

(** [const startAngle = (index / recipes.length) * Math.PI * 2] *)
Definition startAngle (idx n : nat) : float :=
  (ofNat idx / ofNat n) * PI * 2.

(** [const endAngle = ((index + 1) / recipes.length) * Math.PI * 2] *)
Definition endAngle (idx n : nat) : float :=
  ((ofNat idx + 1) / ofNat n) * PI * 2.

(** [(startAngle + endAngle) / 2], the angle of the slice's text. *)
Definition midAngle (idx n : nat) : float :=
  (startAngle idx n + endAngle idx n) / 2.

(** The arc of one slice, its label and the angle of its text.  The
    position of the text, [Math.cos] and [Math.sin] of that angle times
    half the radius, is not modelled: the two functions are not
    determined to the last bit. *)
Record Arc : Type := mkArc {
  label : string;
  arcStart : float;
  arcEnd : float;
  textAngle : float
}.

Definition drawArc (n : nat) (recipe : Recipe) (idx : nat) : Arc :=
  {| label := name recipe;
     arcStart := startAngle idx n;
     arcEnd := endAngle idx n;
     textAngle := midAngle idx n |}.

(** [recipes.forEach ((recipe, index) => ...)], from position [idx] on. *)
Fixpoint forEachFrom (n idx : nat) (rs : list Recipe) : list Arc :=
  match rs with
  | [] => []
  | recipe :: rest => drawArc n recipe idx :: forEachFrom n (S idx) rest
  end.

(** The arcs on the wheel after [createWheel]: none when the guard on
    the number of recipes returns. *)
Definition sectors (recipes : list Recipe) : list Arc :=
  if ((length recipes <? 2)%nat || (100 <? length recipes)%nat)%bool then []
  else forEachFrom (length recipes) 0 recipes.

(** [(finalRotation % (Math.PI * 2) + Math.PI * 2) % (Math.PI * 2)] *)
Definition normalizedRotation (finalRotation : float) : float :=
  rem (rem finalRotation (PI * 2) + PI * 2) (PI * 2).

(** [(Math.PI * 2) / recipes.length] *)
Definition sliceAngle (n : nat) : float := (PI * 2) / ofNat n.

(** [3 * Math.PI / 2] *)
Definition topPosition : float := 3 * PI / 2.

(** [Math.floor (((topPosition - normalizedRotation + Math.PI * 2)
                  % (Math.PI * 2)) / sliceAngle)] *)
Definition slicesFromTop (finalRotation : float) (n : nat) : float :=
  floor (rem (topPosition - normalizedRotation finalRotation + PI * 2)
             (PI * 2)
         / sliceAngle n).

(** [slicesFromTop % recipes.length] *)
Definition winningIndex (finalRotation : float) (n : nat) : float :=
  rem (slicesFromTop finalRotation n) (ofNat n).

(** [getWinningItem]: [null] without recipes, otherwise the name of
    [recipes[winningIndex]], or the [TypeError] of reading [.name] of
    [undefined]. *)
Definition getWinningItem (recipes : list Recipe) (finalRotation : float)
  : Winner :=
  match recipes with
  | [] => Null
  | _ :: _ =>
      match toIndex (winningIndex finalRotation (length recipes)) with
      | None => Raised JS.TypeError
      | Some k =>
          match lookup recipes k with
          | Some recipe => Name (name recipe)
          | None => Raised JS.TypeError
          end
      end
  end.

(** [maxRotations * Math.PI * 2 * easeOut (1)] with
    [maxRotations = 10 + random]: the rotation [animate] hands to
    [getWinningItem]; [easeOut (1)] is [1 - 0] and the last product is
    exact. *)
Definition finalRotation (random : float) : float :=
  (10 + random) * PI * 2.

(** A number that is a position of an array, and a position that
    passes the test [ok]. *)
Definition indexIs (x : float) (ok : nat -> bool) : bool :=
  match toIndex x with
  | Some k => ok k
  | None => false
  end.


(** The arc of slice [idx] as the partition invariant wants it: it
    starts where the slice before ended, at 0 for the first slice; it
    ends after it starts, at [2 * PI] for the last slice; and its width
    is [2 * PI / n] to within [2 ^ -49]. *)
Definition arcInPlace (n idx : nat) : bool :=
  ((match idx with
    | O => startAngle 0 n =? 0
    | S before => endAngle before n =? startAngle idx n
    end)
   && (startAngle idx n <? endAngle idx n)
   && (if (S idx =? n)%nat then endAngle idx n =? PI * 2 else true)
   && (abs (endAngle idx n - startAngle idx n - sliceAngle n)
       <=? 0x1p-49))%float.

End Double.

(** ** The rendered view *)

(** What the component returns: the button, disabled or not, with its
    text, and the line that names the winner.  [winningItem && <p>...</p>]
    renders the paragraph only for a string that is not empty. *)
Record View : Type := mkView {
  buttonDisabled : bool;
  buttonText : string;
  winnerLine : option string
}.

Definition render (recipes : list Recipe) (c : Component) : View :=
  {| buttonDisabled := isSpinning c || (length recipes =? 0)%nat;
     buttonText := if isSpinning c then "Spinning..." else "Spin";
     winnerLine :=
       match winningItem c with
       | None => None
       | Some winner =>
           if String.eqb winner "" then None
           else Some (String.append "Winning item: " winner)
       end |}.

(** The counts for which [createWheel] draws. *)
Definition validCount (recipes : list Recipe) : bool :=
  negb ((length recipes <? 2)%nat || (100 <? length recipes)%nat).

(** [createWheel] run once for each array of recipes the component is
    given in turn, as the effect [useEffect (..., [createWheel])] does
    whenever [recipes] changes. *)
Definition createWheelEach (arrays : list (list Recipe)) : Component :=
  fold_left (fun c recipes => fst (createWheel recipes c)) arrays created.

(** * Properties *)

(** ** The truncated remainder *)

Section Remainder.

Variables x y : R.
Hypothesis y_pos : 0 < y.

Lemma quotient_bounds (lo hi : R) :
  lo * y <= x < hi * y -> lo <= x / y < hi.
Proof.
  intros [Hlo Hhi].
  assert (Hx : x = x / y * y) by (field; lra).
  split.
  - apply Rmult_le_reg_r with y; [exact y_pos | lra].
  - apply Rmult_lt_reg_r with y; [exact y_pos | lra].
Qed.

Lemma quotient_bounds_strict (lo hi : R) :
  lo * y < x <= hi * y -> lo < x / y <= hi.
Proof.
  intros [Hlo Hhi].
  assert (Hx : x = x / y * y) by (field; lra).
  split.
  - apply Rmult_lt_reg_r with y; [exact y_pos | lra].
  - apply Rmult_le_reg_r with y; [exact y_pos | lra].
Qed.

(** A non-negative dividend: the quotient is the floor. *)
Lemma rem_nonneg (k : Z) :
  0 <= x -> IZR k * y <= x < (IZR k + 1) * y ->
  x %% y = x - y * IZR k.
Proof.
  intros Hx Hk. unfold JS.rem, JS.trunc.
  apply quotient_bounds in Hk.
  destruct (Rle_dec 0 (x / y)) as [_ | Hneg].
  - rewrite (Zfloor_eq k (x / y)) by exact Hk. reflexivity.
  - exfalso. apply Hneg.
    assert (H0 : 0 * y <= x < (x / y + 1) * y).
    { split; [lra |]. replace ((x / y + 1) * y) with (x + y) by (field; lra). lra. }
    apply quotient_bounds in H0. lra.
Qed.

(** A negative dividend: the quotient is the ceiling. *)
Lemma rem_neg (k : Z) :
  x < 0 -> (IZR k - 1) * y < x <= IZR k * y ->
  x %% y = x - y * IZR k.
Proof.
  intros Hx Hk. unfold JS.rem, JS.trunc.
  apply quotient_bounds_strict in Hk.
  destruct (Rle_dec 0 (x / y)) as [Hpos | _].
  - exfalso.
    assert (Hq : x = x / y * y) by (field; lra).
    assert (0 <= x / y * y) by (apply Rmult_le_pos; lra). lra.
  - rewrite (Zceil_eq k (x / y)) by exact Hk. reflexivity.
Qed.

End Remainder.

(** ** Normalising a rotation *)

Lemma two_pi_pos : 0 < PI * 2.
Proof. pose proof PI_RGT_0. lra. Qed.

(** The double remainder of the source is the remainder of the floored
    division. *)
Lemma normalizedRotation_floor (r : R) :
  normalizedRotation r = r - PI * 2 * IZR (Zfloor (r / (PI * 2))).
Proof.
  pose proof two_pi_pos as HT.
  set (T := PI * 2) in *.
  set (q := Zfloor (r / T)).
  assert (Hq : IZR q * T <= r < (IZR q + 1) * T).
  { pose proof (Zfloor_bound (r / T)) as [Hlo Hhi]. fold q in Hlo, Hhi.
    assert (Hr : r / T * T = r) by (field; lra).
    assert (IZR q * T <= r / T * T) by (apply Rmult_le_compat_r; lra).
    assert (r / T * T < (IZR q + 1) * T) by (apply Rmult_lt_compat_r; lra).
    lra. }
  unfold normalizedRotation. fold T.
  destruct (Rle_dec 0 r) as [Hpos | Hneg].
  - rewrite (rem_nonneg r T HT q Hpos Hq).
    rewrite (rem_nonneg (r - T * IZR q + T) T HT 1); lra.
  - destruct (Req_dec r (IZR q * T)) as [Heq | Hne].
    + rewrite (rem_neg r T HT q) by lra.
      rewrite (rem_nonneg (r - T * IZR q + T) T HT 1); lra.
    + rewrite (rem_neg r T HT (q + 1)) by (try rewrite plus_IZR; lra).
      rewrite plus_IZR.
      rewrite (rem_nonneg (r - T * (IZR q + 1) + T) T HT 0); lra.
Qed.

Lemma normalizedRotation_eq (r : R) (k : Z) :
  0 <= r - PI * 2 * IZR k < PI * 2 ->
  normalizedRotation r = r - PI * 2 * IZR k.
Proof.
  intros Hk. rewrite normalizedRotation_floor.
  pose proof two_pi_pos as HT.
  rewrite (Zfloor_eq k); [reflexivity |].
  apply quotient_bounds; lra.
Qed.

Lemma normalizedRotation_range (r : R) :
  0 <= normalizedRotation r < PI * 2.
Proof.
  rewrite normalizedRotation_floor.
  pose proof two_pi_pos as HT.
  pose proof (Zfloor_bound (r / (PI * 2))) as [Hlo Hhi].
  assert (Hr : r = r / (PI * 2) * (PI * 2)) by (field; lra).
  set (q := IZR (Zfloor (r / (PI * 2)))) in *.
  assert (q * (PI * 2) <= r / (PI * 2) * (PI * 2))
    by (apply Rmult_le_compat_r; lra).
  assert (r / (PI * 2) * (PI * 2) < (q + 1) * (PI * 2))
    by (apply Rmult_lt_compat_r; lra).
  lra.
Qed.

(** ** The angle of the wheel that sits under the pointer *)

Lemma pointed_cases (r : R) :
  let d := topPosition - normalizedRotation r in
  (0 <= d /\ pointed r = d) \/ (d < 0 /\ pointed r = d + PI * 2).
Proof.
  intros d. pose proof two_pi_pos as HT.
  pose proof (normalizedRotation_range r) as Hn.
  unfold pointed. fold d.
  assert (Hd : - (PI * 2) < d <= 3 * PI / 2) by (unfold d, topPosition; lra).
  destruct (Rle_dec 0 d) as [Hpos | Hneg].
  - left. split; [exact Hpos |].
    rewrite (rem_nonneg (d + PI * 2) (PI * 2) HT 1); lra.
  - right. split; [lra |].
    rewrite (rem_nonneg (d + PI * 2) (PI * 2) HT 0); lra.
Qed.

Lemma pointed_range (r : R) : 0 <= pointed r < PI * 2.
Proof.
  pose proof two_pi_pos as HT.
  pose proof (normalizedRotation_range r) as Hn.
  destruct (pointed_cases r) as [[Hd ->] | [Hd ->]];
    unfold topPosition in *; lra.
Qed.

(** Turning the wheel by [topPosition - a] puts the angle [a] of the
    wheel under the pointer. *)
Lemma pointed_top_minus (a : R) :
  0 <= a < PI * 2 -> pointed (topPosition - a) = a.
Proof.
  intros Ha. pose proof two_pi_pos as HT.
  assert (Hn : normalizedRotation (topPosition - a)
               = if Rle_dec a topPosition then topPosition - a
                 else topPosition - a + PI * 2).
  { destruct (Rle_dec a topPosition) as [Hle | Hgt].
    - rewrite (normalizedRotation_eq _ 0); unfold topPosition in *; lra.
    - rewrite (normalizedRotation_eq _ (-1)); unfold topPosition in *; lra. }
  destruct (pointed_cases (topPosition - a)) as [[Hd ->] | [Hd ->]];
    rewrite Hn in *; destruct (Rle_dec a topPosition);
    unfold topPosition in *; lra.
Qed.

(** ** From the pointed angle to the winning index *)

Lemma slicesFromTop_pointed (r : R) (n : nat) :
  slicesFromTop r n = Zfloor (pointed r / sliceAngle n).
Proof. reflexivity. Qed.

Lemma INR_pos (n : nat) : (0 < n)%nat -> 0 < INR n.
Proof. intros Hn. apply lt_0_INR. exact Hn. Qed.

Lemma sliceAngle_pos (n : nat) : (0 < n)%nat -> 0 < sliceAngle n.
Proof.
  intros Hn. unfold sliceAngle.
  apply Rdiv_lt_0_compat; [exact two_pi_pos | apply INR_pos; exact Hn].
Qed.

Lemma sliceAngle_total (n : nat) : (0 < n)%nat -> INR n * sliceAngle n = PI * 2.
Proof.
  intros Hn. unfold sliceAngle. pose proof (INR_pos n Hn). field. lra.
Qed.

Lemma slicesFromTop_eq (r : R) (n : nat) (i : Z) :
  (0 < n)%nat ->
  IZR i * sliceAngle n <= pointed r < (IZR i + 1) * sliceAngle n ->
  slicesFromTop r n = i.
Proof.
  intros Hn Hi. rewrite slicesFromTop_pointed.
  apply Zfloor_eq.
  apply quotient_bounds; [apply sliceAngle_pos; exact Hn | exact Hi].
Qed.

Lemma slicesFromTop_range (r : R) (n : nat) :
  (0 < n)%nat -> (0 <= slicesFromTop r n < Z.of_nat n)%Z.
Proof.
  intros Hn. rewrite slicesFromTop_pointed.
  pose proof (sliceAngle_pos n Hn) as Hs.
  pose proof (sliceAngle_total n Hn) as Ht.
  pose proof (pointed_range r) as Hp.
  assert (Hq : 0 <= pointed r / sliceAngle n < INR n)
    by (apply quotient_bounds; [exact Hs | lra]).
  pose proof (Zfloor_bound (pointed r / sliceAngle n)) as Hf.
  split.
  - apply Zfloor_lub. lra.
  - apply lt_IZR. rewrite <- INR_IZR_INZ. lra.
Qed.

Lemma winningIndex_slicesFromTop (r : R) (n : nat) :
  (0 < n)%nat -> winningIndex r n = slicesFromTop r n.
Proof.
  intros Hn. unfold winningIndex.
  apply Z.rem_small. apply slicesFromTop_range. exact Hn.
Qed.

Lemma winningIndex_range (r : R) (n : nat) :
  (0 < n)%nat -> (0 <= winningIndex r n < Z.of_nat n)%Z.
Proof.
  intros Hn. rewrite winningIndex_slicesFromTop by exact Hn.
  apply slicesFromTop_range. exact Hn.
Qed.

Lemma indexZ_of_nat {A : Type} (arr : list A) (i : nat) :
  indexZ arr (Z.of_nat i) = lookup arr i.
Proof.
  unfold indexZ.
  destruct (Z.ltb_spec (Z.of_nat i) 0) as [Hneg | _]; [lia |].
  rewrite Nat2Z.id. reflexivity.
Qed.

Lemma indexZ_in_range {A : Type} (arr : list A) (z : Z) :
  (0 <= z < Z.of_nat (length arr))%Z -> exists x, indexZ arr z = Some x.
Proof.
  intros Hz. unfold indexZ, lookup.
  destruct (Z.ltb_spec z 0) as [Hneg | _]; [lia |].
  destruct (nth_error arr (Z.to_nat z)) as [x |] eqn:Hx.
  - exists x. reflexivity.
  - apply nth_error_None in Hx. lia.
Qed.

(** With at least one recipe the lookup of [getWinningItem] succeeds. *)
Lemma getWinningItem_name (recipes : list Recipe) (r : R) :
  recipes <> [] ->
  exists recipe,
    indexZ recipes (winningIndex r (length recipes)) = Some recipe /\
    getWinningItem recipes r = Name (name recipe).
Proof.
  intros Hne.
  assert (Hn : (0 < length recipes)%nat)
    by (destruct recipes; [congruence | simpl; lia]).
  destruct (indexZ_in_range recipes (winningIndex r (length recipes)))
    as [recipe Hrecipe]; [apply winningIndex_range; exact Hn |].
  exists recipe. split; [exact Hrecipe |].
  unfold getWinningItem. destruct recipes; [congruence |].
  rewrite Hrecipe. reflexivity.
Qed.

(** The wheel turned by [topPosition - a]: the winner is the recipe
    whose span, closed below and open above, holds [a]. *)
Lemma getWinningItem_top_minus (recipes : list Recipe) (a : R) (i : nat)
  (recipe : Recipe) :
  lookup recipes i = Some recipe ->
  INR i * sliceAngle (length recipes) <= a
    < (INR i + 1) * sliceAngle (length recipes) ->
  winningIndex (topPosition - a) (length recipes) = Z.of_nat i /\
  getWinningItem recipes (topPosition - a) = Name (name recipe).
Proof.
  intros Hi Ha.
  assert (Hlt : (i < length recipes)%nat)
    by (apply nth_error_Some; unfold lookup in Hi; congruence).
  assert (Hn : (0 < length recipes)%nat) by lia.
  pose proof (sliceAngle_pos _ Hn) as Hs.
  pose proof (sliceAngle_total _ Hn) as Ht.
  assert (Hi1 : INR i + 1 <= INR (length recipes)).
  { rewrite <- S_INR. apply le_INR. lia. }
  assert (Hi0 : 0 <= INR i) by apply pos_INR.
  assert (Hrange : 0 <= a < PI * 2).
  { split.
    - apply Rle_trans with (INR i * sliceAngle (length recipes));
        [apply Rmult_le_pos; lra | lra].
    - apply Rlt_le_trans with ((INR i + 1) * sliceAngle (length recipes));
        [lra |]. rewrite <- Ht. apply Rmult_le_compat_r; lra. }
  assert (Hw : winningIndex (topPosition - a) (length recipes) = Z.of_nat i).
  { rewrite winningIndex_slicesFromTop by exact Hn.
    apply slicesFromTop_eq; [exact Hn |].
    rewrite pointed_top_minus by exact Hrange.
    rewrite <- INR_IZR_INZ. exact Ha. }
  split; [exact Hw |].
  unfold getWinningItem. destruct recipes as [| r0 rest]; [simpl in Hn; lia |].
  rewrite Hw, indexZ_of_nat, Hi. reflexivity.
Qed.

(** ** Easing and progress *)

Lemma easeOut_cube (t : R) : easeOut t = 1 - (1 - t) * (1 - t) * (1 - t).
Proof. unfold easeOut, JS.pow. ring. Qed.

Lemma easeOut_monotone (s t : R) : s <= t -> easeOut s <= easeOut t.
Proof.
  intros Hst. rewrite !easeOut_cube.
  set (a := 1 - t). set (b := 1 - s).
  assert (Hab : a <= b) by (unfold a, b; lra).
  assert (Hcube : b * b * b - a * a * a
                  = (b - a) * ((a + b / 2) * (a + b / 2) + 3 / 4 * (b * b)))
    by field.
  assert (0 <= (a + b / 2) * (a + b / 2)) by apply Rle_0_sqr.
  assert (0 <= b * b) by apply Rle_0_sqr.
  assert (0 <= (b - a) * ((a + b / 2) * (a + b / 2) + 3 / 4 * (b * b)))
    by (apply Rmult_le_pos; lra).
  lra.
Qed.

Lemma progress_min (a : Animation) (now : Z) :
  progress a now = Rmin (IZR (now - startTime a) / 10000) 1.
Proof. reflexivity. Qed.

Lemma progress_le_1 (a : Animation) (now : Z) : progress a now <= 1.
Proof. rewrite progress_min. apply Rmin_r. Qed.

Lemma progress_running (a : Animation) (now : Z) :
  (now < startTime a + 10000)%Z -> progress a now < 1.
Proof.
  intros Hnow. rewrite progress_min.
  apply Rle_lt_trans with (IZR (now - startTime a) / 10000); [apply Rmin_l |].
  assert (Hlt : IZR (now - startTime a) < IZR 10000) by (apply IZR_lt; lia).
  lra.
Qed.

Lemma progress_done (a : Animation) (now : Z) :
  (startTime a + 10000 <= now)%Z -> progress a now = 1.
Proof.
  intros Hnow. rewrite progress_min. apply Rmin_right.
  assert (Hle : IZR 10000 <= IZR (now - startTime a)) by (apply IZR_le; lia).
  lra.
Qed.

(** From the start of the animation on, [Math.min] alone is the clamp. *)
Lemma progress_clamped (a : Animation) (now : Z) :
  (startTime a <= now)%Z -> progress a now = clampedProgress a now.
Proof.
  intros Hnow. rewrite progress_min. unfold clampedProgress, clamp, spinDuration.
  assert (H0 : IZR 0 <= IZR (now - startTime a)) by (apply IZR_le; lia).
  rewrite Rmax_right; [reflexivity |].
  apply Rmin_glb; lra.
Qed.

(** ** The setters *)

Lemma setRotation_wheel (r : R) (c : Component) (w : Wheel) :
  wheelContainerRef c = Some w ->
  setRotation r c
  = setWheel (Some (mkWheel (slices w) (wheelX w) (wheelY w) r)) c.
Proof. intros Hw. unfold setRotation. rewrite Hw. reflexivity. Qed.

Lemma setRotation_fields (r : R) (c : Component) :
  tickerRef (setRotation r c) = tickerRef c /\
  winningItem (setRotation r c) = winningItem c /\
  isSpinning (setRotation r c) = isSpinning c /\
  frames (setRotation r c) = frames c /\
  (wheelContainerRef c <> None -> wheelContainerRef (setRotation r c) <> None).
Proof.
  unfold setRotation. destruct (wheelContainerRef c) as [w |] eqn:Hw; simpl.
  - repeat split; congruence.
  - repeat split; congruence.
Qed.

Lemma wheelRotation_setRotation (r : R) (c : Component) (w : Wheel) :
  wheelContainerRef c = Some w -> wheelRotation (setRotation r c) = Some r.
Proof.
  intros Hw. rewrite (setRotation_wheel r c w Hw). reflexivity.
Qed.

(** ** One run of animate *)

Lemma animate_running (recipes : list Recipe) (a : Animation) (now : Z)
  (c : Component) :
  progress a now < 1 ->
  animate recipes a now c
  = (requestAnimationFrame a (setRotation (rotationAt a now) c), JS.Normal).
Proof.
  intros Hp. unfold animate.
  destruct (Rlt_dec (progress a now) 1) as [_ | Hge]; [reflexivity | contradiction].
Qed.

Lemma animate_done (recipes : list Recipe) (a : Animation) (now : Z)
  (c : Component) :
  recipes <> [] -> ~ progress a now < 1 ->
  exists recipe,
    indexZ recipes (winningIndex (rotationAt a now) (length recipes))
      = Some recipe /\
    animate recipes a now c
    = (setIsSpinning false
         (setWinningItem (Some (name recipe))
            (setRotation (rotationAt a now) c)), JS.Normal).
Proof.
  intros Hne Hp.
  destruct (getWinningItem_name recipes (rotationAt a now) Hne)
    as [recipe [Hidx Hwin]].
  exists recipe. split; [exact Hidx |].
  unfold animate.
  destruct (Rlt_dec (progress a now) 1) as [Hlt | _]; [contradiction |].
  rewrite Hwin. reflexivity.
Qed.

(** Whatever branch it takes, [animate] leaves the wheel at
    [rotationAt a now]. *)
Lemma animate_rotation (recipes : list Recipe) (a : Animation) (now : Z)
  (c : Component) (w : Wheel) :
  wheelContainerRef c = Some w ->
  wheelRotation (fst (animate recipes a now c)) = Some (rotationAt a now).
Proof.
  intros Hw.
  pose proof (wheelRotation_setRotation (rotationAt a now) c w Hw) as Hr.
  unfold animate.
  destruct (Rlt_dec (progress a now) 1) as [_ | _].
  - exact Hr.
  - destruct (getWinningItem recipes (rotationAt a now)); exact Hr.
Qed.

(** [spin] past its guard is the first run of [animate]. *)
Lemma spin_starts (recipes : list Recipe) (random : R) (now0 now1 : Z)
  (c : Component) :
  wheelContainerRef c <> None -> tickerRef c = true -> recipes <> [] ->
  isSpinning c = false ->
  spin recipes random now0 now1 c
  = animate recipes (mkAnimation now0 (10 + random)) now1
      (setWinningItem None (setIsSpinning true c)).
Proof.
  intros Hw Ht Hne Hs. unfold spin.
  destruct (wheelContainerRef c) as [w |]; [| congruence].
  rewrite Ht, Hs.
  destruct recipes as [| r rest]; [congruence |]. reflexivity.
Qed.

(** [spin] during a spin returns at its guard. *)
Lemma spin_ignored (recipes : list Recipe) (random : R) (now0 now1 : Z)
  (c : Component) :
  isSpinning c = true -> spin recipes random now0 now1 c = (c, JS.Normal).
Proof.
  intros Hs. unfold spin. rewrite Hs.
  destruct (wheelContainerRef c); [| reflexivity].
  rewrite !orb_true_r. reflexivity.
Qed.

(** ** What holds of every reachable component *)

Section Reachable.

Variable recipes : list Recipe.
Hypothesis count_valid : (2 <= length recipes <= 100)%nat.

Lemma recipes_nonempty : recipes <> [].
Proof. destruct recipes; [simpl in count_valid; lia | discriminate]. Qed.

Lemma mounted_wheel :
  mounted recipes
  = addTicker
      (setWheel
         (Some (mkWheel (forEachFrom (length recipes) 0 recipes)
                        centerX centerY 0)) created).
Proof.
  unfold mounted, createWheel. simpl appRef. simpl negb.
  destruct (Nat.ltb_spec (length recipes) 2) as [H2 | _]; [lia |].
  destruct (Nat.ltb_spec 100 (length recipes)) as [H100 | _]; [lia |].
  reflexivity.
Qed.

Lemma mounted_consistent : consistent (mounted recipes).
Proof.
  rewrite mounted_wheel. unfold consistent. simpl.
  split; [discriminate |]. split; [reflexivity |]. left. split; reflexivity.
Qed.

(** A run of [animate] that starts with no frame pending. *)
Lemma animate_consistent (a : Animation) (now : Z) (c : Component) :
  wheelContainerRef c <> None -> tickerRef c = true ->
  isSpinning c = true -> frames c = [] ->
  consistent (fst (animate recipes a now c)).
Proof.
  intros Hw Ht Hs Hf.
  destruct (setRotation_fields (rotationAt a now) c)
    as (Ht' & _ & Hs' & Hf' & Hw').
  destruct (Rlt_dec (progress a now) 1) as [Hlt | Hge].
  - rewrite (animate_running recipes a now c Hlt).
    unfold consistent, requestAnimationFrame. simpl.
    split; [apply Hw'; exact Hw |]. split; [congruence |].
    right. split; [congruence |]. exists a. rewrite Hf', Hf. reflexivity.
  - destruct (animate_done recipes a now c recipes_nonempty Hge)
      as [recipe [_ ->]].
    unfold consistent. simpl.
    split; [apply Hw'; exact Hw |]. split; [congruence |].
    left. split; [reflexivity | congruence].
Qed.

Lemma step_consistent (e : event) (c : Component) :
  consistent c -> consistent (step recipes e c).
Proof.
  intros Hc. pose proof Hc as (Hw & Ht & Hstate).
  unfold step. destruct e as [random now0 now1 | now]; simpl handle.
  - destruct Hstate as [[Hs Hf] | [Hs _]].
    + rewrite spin_starts by (try exact recipes_nonempty; assumption).
      apply animate_consistent; simpl; solve [assumption | reflexivity].
    + rewrite spin_ignored by exact Hs. exact Hc.
  - destruct Hstate as [[Hs Hf] | [Hs [a Hf]]].
    + rewrite Hf. exact Hc.
    + rewrite Hf. apply animate_consistent; simpl; solve [assumption | reflexivity].
Qed.

Lemma reachable_consistent (c : Component) :
  reachable recipes c -> consistent c.
Proof.
  induction 1 as [| e c _ IH].
  - exact mounted_consistent.
  - apply step_consistent. exact IH.
Qed.

(** The frame that runs at or after [startTime + spinDuration] ends the
    spin. *)
Lemma last_frame (a : Animation) (now : Z) (c : Component) :
  consistent c -> frames c = [a] -> (startTime a + 10000 <= now)%Z ->
  consistent (step recipes (Frame now) c) /\
  isSpinning (step recipes (Frame now) c) = false /\
  frames (step recipes (Frame now) c) = [].
Proof.
  intros Hc Hf Hnow.
  split; [apply step_consistent; exact Hc |].
  unfold step. simpl handle. rewrite Hf.
  assert (Hge : ~ progress a now < 1) by (rewrite progress_done by exact Hnow; lra).
  destruct (animate_done recipes a now (setFrames [] c) recipes_nonempty Hge)
    as [recipe [_ ->]].
  destruct (setRotation_fields (rotationAt a now) (setFrames [] c))
    as (_ & _ & _ & Hf' & _).
  simpl. split; [reflexivity | exact Hf'].
Qed.

(** A click on an idle component starts one animation. *)
Lemma click_starts (random : R) (now0 now1 : Z) (c : Component) :
  consistent c -> isSpinning c = false -> (now1 < now0 + 10000)%Z ->
  isSpinning (step recipes (Click random now0 now1) c) = true /\
  frames (step recipes (Click random now0 now1) c)
  = [mkAnimation now0 (10 + random)].
Proof.
  intros (Hw & Ht & Hstate) Hs Hnow.
  destruct Hstate as [[_ Hf] | [Hs' _]]; [| congruence].
  unfold step. simpl handle.
  rewrite spin_starts by (try exact recipes_nonempty; assumption).
  rewrite animate_running by (apply progress_running; simpl; lia).
  destruct (setRotation_fields
              (rotationAt (mkAnimation now0 (10 + random)) now1)
              (setWinningItem None (setIsSpinning true c)))
    as (_ & _ & Hs'' & Hf'' & _).
  unfold requestAnimationFrame. simpl.
  split; [exact Hs'' |]. rewrite Hf''. simpl. rewrite Hf. reflexivity.
Qed.

End Reachable.

(** ** The source's doubles, by evaluation *)

Lemma forallb_nested {A : Type} (inner : nat -> list A)
  (P : nat -> A -> bool) (lo len : nat) :
  forallb (fun n => forallb (P n) (inner n)) (seq lo len) = true ->
  forall n x, (lo <= n < lo + len)%nat -> In x (inner n) -> P n x = true.
Proof.
  intros Hall n x Hn Hx.
  rewrite forallb_forall in Hall.
  assert (Hinner : forallb (P n) (inner n) = true)
    by (apply Hall, in_seq; exact Hn).
  rewrite forallb_forall in Hinner. apply Hinner. exact Hx.
Qed.

Lemma in_seq_0 (n i : nat) : (i < n)%nat -> In i (seq 0 n).
Proof. intros Hi. apply in_seq. lia. Qed.


(** Every arc, for 2 to 100 recipes, is in its place. *)
Lemma arcs_in_place :
  forallb (fun n => forallb (Double.arcInPlace n) (seq 0 n)) (seq 2 99) = true.
Proof. vm_compute. reflexivity. Qed.


(** Every border, for 2 to 100 recipes, resolves to one of its two
    slices. *)
Lemma borders_resolve :
  forallb
    (fun n =>
       forallb
         (fun i =>
            Double.indexIs
              (Double.winningIndex
                 (Double.topPosition - Double.startAngle i n)%float n)
              (fun k => (k =? i)%nat || (k =? (i + n - 1) mod n)%nat))
         (seq 0 n))
    (seq 2 99) = true.
Proof. vm_compute. reflexivity. Qed.

(** The winning index of the wheel at rest, for 1 to 100 recipes: the
    integer quotient of [3 * n] by 4, but 62 for 84 recipes. *)
Lemma resting_indices :
  forallb
    (fun n =>
       Double.indexIs (Double.winningIndex 0 n)
         (fun k => (k =? (if n =? 84 then 62 else 3 * n / 4))%nat))
    (seq 1 100) = true.
Proof. vm_compute. reflexivity. Qed.

Lemma indexIs_true (x : float) (ok : nat -> bool) :
  Double.indexIs x ok = true ->
  exists k, Double.toIndex x = Some k /\ ok k = true.
Proof.
  unfold Double.indexIs. destruct (Double.toIndex x) as [k |]; [| discriminate].
  intros Hok. exists k. split; [reflexivity | exact Hok].
Qed.

Lemma double_forEachFrom_length (n idx : nat) (rs : list Recipe) :
  length (Double.forEachFrom n idx rs) = length rs.
Proof.
  revert idx. induction rs as [| r rest IH]; intros idx; simpl.
  - reflexivity.
  - rewrite IH. reflexivity.
Qed.

Lemma double_forEachFrom_lookup (n idx : nat) (rs : list Recipe) (i : nat) :
  lookup (Double.forEachFrom n idx rs) i
  = option_map (fun recipe => Double.drawArc n recipe (idx + i))
               (lookup rs i).
Proof.
  revert idx i. induction rs as [| r rest IH]; intros idx i.
  - destruct i; reflexivity.
  - destruct i as [| i]; simpl.
    + rewrite Nat.add_0_r. reflexivity.
    + unfold lookup in IH. rewrite IH.
      replace (S idx + i)%nat with (idx + S i)%nat by lia. reflexivity.
Qed.

Lemma double_sectors_valid (recipes : list Recipe) :
  (2 <= length recipes <= 100)%nat ->
  Double.sectors recipes = Double.forEachFrom (length recipes) 0 recipes.
Proof.
  intros [Hlo Hhi]. unfold Double.sectors.
  destruct (Nat.ltb_spec (length recipes) 2) as [H2 | _]; [lia |].
  destruct (Nat.ltb_spec 100 (length recipes)) as [H100 | _]; [lia |].
  reflexivity.
Qed.

(** Every arc on the wheel is the drawing of the recipe at its
    position. *)
Lemma double_sectors_drawn (recipes : list Recipe) (i : nat)
  (s : Double.Arc) :
  (2 <= length recipes <= 100)%nat ->
  lookup (Double.sectors recipes) i = Some s ->
  (i < length recipes)%nat /\
  exists recipe,
    lookup recipes i = Some recipe /\
    s = Double.drawArc (length recipes) recipe i.
Proof.
  intros Hn Hs.
  rewrite double_sectors_valid, double_forEachFrom_lookup in Hs by exact Hn.
  destruct (lookup recipes i) as [recipe |] eqn:Hi; [| discriminate].
  split; [apply nth_error_Some; unfold lookup in Hi; congruence |].
  exists recipe. split; [reflexivity |]. simpl in Hs. congruence.
Qed.


(** The worked example on the source's doubles: as over the reals,
    three quarters of a turn bring [A] under the pointer and no turn
    leaves [D] there. *)
Lemma example_on_doubles :
  Double.getWinningItem labelsABCD (3 * Double.PI / 2)%float = Name "A" /\
  Double.getWinningItem labelsABCD 0%float = Name "D".
Proof. split; vm_compute; reflexivity. Qed.







(** C3, as the code has it.  With between 2 and 100 recipes
    [createWheel] draws one arc per recipe, in the order of the recipes;
    the first starts at 0, each ends after it starts and exactly where
    the next starts, and the last ends at [2 * PI], so the arcs tile the
    turn without gap or overlap; the width of an arc is [2 * PI / N] to
    within [2 ^ -49], not exactly.  All of it is the source's double
    arithmetic, with [==] of numbers for the equalities. *)
Theorem arcs_tile_the_turn (recipes : list Recipe) :
  (2 <= length recipes <= 100)%nat ->
  length (Double.sectors recipes) = length recipes /\
  (forall i s, lookup (Double.sectors recipes) i = Some s ->
     option_map name (lookup recipes i) = Some (Double.label s) /\
     (Double.arcStart s <? Double.arcEnd s)%float = true /\
     (abs (Double.arcEnd s - Double.arcStart s
           - Double.sliceAngle (length recipes)) <=? 0x1p-49)%float = true) /\
  (forall s, lookup (Double.sectors recipes) 0 = Some s ->
     (Double.arcStart s =? 0)%float = true) /\
  (forall i s s',
     lookup (Double.sectors recipes) i = Some s ->
     lookup (Double.sectors recipes) (i + 1) = Some s' ->
     (Double.arcEnd s =? Double.arcStart s')%float = true) /\
  (forall s, lookup (Double.sectors recipes) (length recipes - 1) = Some s ->
     (Double.arcEnd s =? Double.PI * 2)%float = true).
Proof.
  intros Hn.
  assert (Hplace : forall i, (i < length recipes)%nat ->
            Double.arcInPlace (length recipes) i = true).
  { intros i Hi.
    assert (Hrange : (2 <= length recipes < 2 + 99)%nat) by lia.
    apply (forallb_nested (fun n => seq 0 n) Double.arcInPlace 2 99
             arcs_in_place (length recipes) i Hrange (in_seq_0 _ _ Hi)). }
  assert (Hparts : forall i, (i < length recipes)%nat ->
            (match i with
             | O => (Double.startAngle 0 (length recipes) =? 0)%float
             | S before =>
                 (Double.endAngle before (length recipes)
                  =? Double.startAngle i (length recipes))%float
             end = true) /\
            (Double.startAngle i (length recipes)
             <? Double.endAngle i (length recipes))%float = true /\
            ((if (S i =? length recipes)%nat
              then (Double.endAngle i (length recipes) =? Double.PI * 2)%float
              else true) = true) /\
            (abs (Double.endAngle i (length recipes)
                  - Double.startAngle i (length recipes)
                  - Double.sliceAngle (length recipes)) <=? 0x1p-49)%float
            = true).
  { intros i Hi. pose proof (Hplace i Hi) as Hc.
    unfold Double.arcInPlace in Hc.
    apply andb_true_iff in Hc as [Hc Hwidth].
    apply andb_true_iff in Hc as [Hc Hlast].
    apply andb_true_iff in Hc as [Hfirst Horder].
    repeat split; assumption. }
  split; [rewrite double_sectors_valid by exact Hn;
          apply double_forEachFrom_length |].
  split.
  { intros i s Hs.
    destruct (double_sectors_drawn recipes i s Hn Hs)
      as (Hi & recipe & Hrecipe & ->).
    destruct (Hparts i Hi) as (_ & Horder & _ & Hwidth).
    rewrite Hrecipe. repeat split; assumption. }
  split.
  { intros s Hs.
    destruct (double_sectors_drawn recipes 0 s Hn Hs)
      as (Hi & recipe & _ & ->).
    destruct (Hparts 0%nat Hi) as (Hfirst & _). exact Hfirst. }
  split.
  { intros i s s' Hs Hs'.
    destruct (double_sectors_drawn recipes i s Hn Hs)
      as (_ & recipe & _ & ->).
    destruct (double_sectors_drawn recipes (i + 1) s' Hn Hs')
      as (Hi' & recipe' & _ & ->).
    destruct (Hparts (i + 1)%nat Hi') as (Hborder & _).
    replace (i + 1)%nat with (S i) in * by lia. exact Hborder. }
  intros s Hs.
  destruct (double_sectors_drawn recipes _ s Hn Hs)
    as (Hi & recipe & _ & ->).
  destruct (Hparts _ Hi) as (_ & _ & Hlast & _).
  replace (S (length recipes - 1)) with (length recipes) in Hlast by lia.
  rewrite Nat.eqb_refl in Hlast. exact Hlast.
Qed.

Lemma arcs_tile_the_turn_witness :
  length (Double.sectors wheelPageRecipes) = 5%nat.
Proof.
  apply (arcs_tile_the_turn wheelPageRecipes).
  simpl. lia.
Defined.

(** C3 as the spec states it fails on the source's doubles: with six
    recipes the arc of slice 2 is wider than [2 * PI / 6]. *)
Lemma third_arc_of_six_is_wider :
  ((Double.endAngle 2 6 - Double.startAngle 2 6) =? Double.sliceAngle 6)%float
  = false /\
  (Double.sliceAngle 6 <? Double.endAngle 2 6 - Double.startAngle 2 6)%float
  = true.
Proof. split; vm_compute; reflexivity. Qed.



(** The worked example at its two rotations: no turn leaves [D] under
    the pointer, three quarters of a turn bring [A] there. *)
Lemma example_at_top :
  winningIndex (3 * PI / 2) 4 = 0%Z /\
  getWinningItem labelsABCD (3 * PI / 2) = Name "A".
Proof.
  pose proof PI_RGT_0 as Hpi.
  replace (3 * PI / 2) with (topPosition - 0) by (unfold topPosition; lra).
  apply (getWinningItem_top_minus labelsABCD 0 0 (mkRecipe "A")).
  - reflexivity.
  - unfold sliceAngle. simpl. lra.
Qed.

Lemma example_at_zero :
  winningIndex 0 4 = 3%Z /\ getWinningItem labelsABCD 0 = Name "D".
Proof.
  pose proof PI_RGT_0 as Hpi.
  pose proof (getWinningItem_top_minus labelsABCD topPosition 3
                (mkRecipe "D") eq_refl) as Hwin.
  replace (topPosition - topPosition) with 0 in Hwin by lra.
  apply Hwin. unfold sliceAngle, topPosition. simpl. lra.
Qed.

(** C4, as the code has it.  For the labels [A, B, C, D] the rotation
    [3 * PI / 2] normalises to itself, not to 0, and yields the winning
    index 0, the label [A]; the index 3 and the label [D] belong to the
    rotation 0. *)
Theorem example_resolves_to_first_label :
  normalizedRotation (3 * PI / 2) = 3 * PI / 2 /\
  winningIndex (3 * PI / 2) 4 = 0%Z /\
  getWinningItem labelsABCD (3 * PI / 2) = Name "A" /\
  normalizedRotation 0 = 0 /\
  winningIndex 0 4 = 3%Z /\
  getWinningItem labelsABCD 0 = Name "D".
Proof.
  pose proof PI_RGT_0 as Hpi.
  split; [rewrite (normalizedRotation_eq _ 0); lra |].
  split; [apply example_at_top |].
  split; [apply example_at_top |].
  split; [rewrite (normalizedRotation_eq _ 0); lra |].
  split; apply example_at_zero.
Qed.

(** C4 as the spec states it fails: at the rotation [3 * PI / 2] the
    index is not 3 and the label is not [D]. *)
Lemma example_does_not_resolve_to_D :
  winningIndex (3 * PI / 2) 4 <> 3%Z /\
  getWinningItem labelsABCD (3 * PI / 2) <> Name "D".
Proof.
  destruct example_at_top as [Hidx Hwin].
  rewrite Hidx, Hwin. split; discriminate.
Qed.

(** C8.  [easeOut] does not decrease on [0, 1], and takes 0 to 0 and 1
    to 1. *)
Theorem easeOut_non_decreasing (s t : R) :
  0 <= s -> s <= t -> t <= 1 ->
  easeOut s <= easeOut t /\ easeOut 0 = 0 /\ easeOut 1 = 1.
Proof.
  intros _ Hst _.
  split; [apply easeOut_monotone; exact Hst |].
  rewrite !easeOut_cube. split; ring.
Qed.

Lemma easeOut_non_decreasing_witness :
  easeOut (1 / 4) <= easeOut (1 / 2) /\ easeOut 0 = 0 /\ easeOut 1 = 1.
Proof.
  apply (easeOut_non_decreasing (1 / 4) (1 / 2)); lra.
Defined.

(** C9.  The fill of slice [index] is the palette entry at
    [index mod paletteSize]: for every index and every palette size
    other than 0 that index is below the palette size, the entry
    exists, and the colors repeat with the period of the palette size,
    so more slices than colors cycle through the palette in order.
    [createWheel] uses it with [COLORS]. *)
Theorem slice_color_cycles (palette : list Z) (idx : nat) :
  palette <> [] ->
  paletteIndex idx (length palette) = Some (idx mod length palette)%nat /\
  (idx mod length palette < length palette)%nat /\
  (exists color,
     sliceColor palette idx = Some color /\
     lookup palette (idx mod length palette) = Some color) /\
  sliceColor palette (idx + length palette) = sliceColor palette idx /\
  (forall n recipe, fill (drawSlice n recipe idx) = sliceColor COLORS idx).
Proof.
  intros Hne.
  assert (Hlen : length palette <> 0%nat)
    by (destruct palette; [congruence | simpl; lia]).
  assert (Hlt : (idx mod length palette < length palette)%nat)
    by (apply Nat.mod_upper_bound; exact Hlen).
  assert (Hidx : forall k, paletteIndex k (length palette)
                           = Some (k mod length palette)%nat).
  { intros k. unfold paletteIndex.
    destruct (Nat.eqb_spec (length palette) 0); [contradiction | reflexivity]. }
  assert (Hcolor : forall k, sliceColor palette k
                             = lookup palette (k mod length palette))
    by (intros k; unfold sliceColor; rewrite Hidx; reflexivity).
  split; [apply Hidx |]. split; [exact Hlt |]. split.
  - destruct (nth_error palette (idx mod length palette)) as [color |] eqn:Hc.
    + exists color. rewrite Hcolor. unfold lookup. rewrite Hc.
      split; reflexivity.
    + apply nth_error_None in Hc. lia.
  - split; [| reflexivity].
    rewrite !Hcolor.
    replace (idx + length palette)%nat
      with (idx + 1 * length palette)%nat by lia.
    rewrite Nat.Div0.mod_add. reflexivity.
Qed.

Lemma slice_color_cycles_witness :
  sliceColor COLORS 13 = Some 0xFFA07A%Z /\
  sliceColor COLORS (13 + 10) = sliceColor COLORS 13.
Proof.
  destruct (slice_color_cycles COLORS 13) as (_ & _ & _ & Hcycle & _).
  - discriminate.
  - split; [reflexivity | exact Hcycle].
Defined.

(** C10.  Without recipes [getWinningItem] returns [null] at every
    rotation: it neither raises nor computes an index. *)
Theorem no_recipes_no_winner (recipes : list Recipe) (r : R) :
  length recipes = 0%nat -> getWinningItem recipes r = Null.
Proof.
  intros Hlen. destruct recipes; [reflexivity | discriminate].
Qed.

Lemma no_recipes_no_winner_witness : getWinningItem [] (3 * PI / 2) = Null.
Proof.
  apply (no_recipes_no_winner [] (3 * PI / 2)). reflexivity.
Defined.

(** Outside of 2 to 100 recipes [createWheel] returns at its guard. *)
Lemma createWheel_guard (recipes : list Recipe) (c : Component) :
  (length recipes < 2 \/ 100 < length recipes)%nat ->
  createWheel recipes c = (c, JS.Normal).
Proof.
  intros Hn. unfold createWheel.
  destruct (Nat.ltb_spec (length recipes) 2) as [_ | H2];
    [rewrite orb_true_r; reflexivity |].
  destruct (Nat.ltb_spec 100 (length recipes)) as [_ | H100];
    [rewrite orb_true_r; reflexivity | lia].
Qed.

(** C5, as the code has it.  With fewer than 2 or more than 100 recipes
    nothing raises: [createWheel] returns without drawing and leaves the
    component as it was, so the wheel has no slices; [getWinningItem]
    returns [null] when there are no recipes and otherwise the name of
    the recipe at a winning index in [0, N). *)
Theorem invalid_count_is_not_an_error (recipes : list Recipe) :
  (length recipes < 2 \/ 100 < length recipes)%nat ->
  (forall c, createWheel recipes c = (c, JS.Normal)) /\
  sectors recipes = [] /\
  (forall r,
     (length recipes = 0%nat -> getWinningItem recipes r = Null) /\
     (length recipes <> 0%nat ->
      (0 <= winningIndex r (length recipes) < Z.of_nat (length recipes))%Z /\
      exists recipe,
        indexZ recipes (winningIndex r (length recipes)) = Some recipe /\
        getWinningItem recipes r = Name (name recipe))).
Proof.
  intros Hn.
  split; [intros c; apply createWheel_guard; exact Hn |].
  split.
  { unfold sectors, mounted. rewrite createWheel_guard by exact Hn.
    reflexivity. }
  intros r. split.
  - intros Hlen. destruct recipes; [reflexivity | discriminate].
  - intros Hlen. split; [apply winningIndex_range; lia |].
    apply getWinningItem_name. destruct recipes; [contradiction | discriminate].
Qed.

Lemma invalid_count_is_not_an_error_witness :
  sectors [mkRecipe "A"] = [].
Proof.
  apply (invalid_count_is_not_an_error [mkRecipe "A"]).
  left. simpl. lia.
Defined.

(** C5 as the spec states it fails: a single recipe is outside of 2 to
    100, and neither [getWinningItem] nor [createWheel] raises. *)
Lemma invalid_count_raises_nothing :
  (length [mkRecipe "A"] < 2)%nat /\
  getWinningItem [mkRecipe "A"] 0 = Name "A" /\
  ~ (exists e, getWinningItem [mkRecipe "A"] 0 = Raised e) /\
  ~ (exists e, snd (createWheel [mkRecipe "A"] created) = JS.Throw e).
Proof.
  assert (Hwin : getWinningItem [mkRecipe "A"] 0 = Name "A").
  { destruct (getWinningItem_name [mkRecipe "A"] 0) as [recipe [Hidx Hwin]];
      [discriminate |].
    pose proof (winningIndex_range 0 1 Nat.lt_0_1) as Hrange.
    replace (winningIndex 0 (length [mkRecipe "A"])) with 0%Z in Hidx
      by (simpl length; lia).
    rewrite Hwin. injection Hidx as <-. reflexivity. }
  split; [simpl; lia |]. split; [exact Hwin |]. split.
  - rewrite Hwin. intros [e He]. discriminate.
  - rewrite createWheel_guard by (left; simpl; lia).
    intros [e He]. discriminate.
Qed.

(** C6, as the code has it.  In every component reachable with between
    2 and 100 recipes at most one animation frame is pending, and one is
    pending exactly while [isSpinning]; a call of [spin] while
    [isSpinning] returns normally and changes nothing: it raises no
    error and queues nothing; and once the frame at or after
    [startTime + 10000] has run, [isSpinning] is false, no frame is
    pending, and the next click starts a spin. *)
Theorem spin_while_spinning_is_ignored (recipes : list Recipe)
  (c : Component) :
  (2 <= length recipes <= 100)%nat ->
  reachable recipes c ->
  (length (frames c) <= 1)%nat /\
  (isSpinning c = false -> frames c = []) /\
  (isSpinning c = true ->
     (exists a, frames c = [a]) /\
     forall random now0 now1,
       spin recipes random now0 now1 c = (c, JS.Normal)) /\
  (forall a now,
     frames c = [a] -> (startTime a + 10000 <= now)%Z ->
     isSpinning (step recipes (Frame now) c) = false /\
     frames (step recipes (Frame now) c) = [] /\
     forall random now0 now1,
       (now1 < now0 + 10000)%Z ->
       isSpinning (step recipes (Click random now0 now1)
                     (step recipes (Frame now) c)) = true /\
       frames (step recipes (Click random now0 now1)
                 (step recipes (Frame now) c))
       = [mkAnimation now0 (10 + random)]).
Proof.
  intros Hn Hreach.
  pose proof (reachable_consistent recipes Hn c Hreach) as Hc.
  pose proof Hc as (_ & _ & Hstate).
  split; [destruct Hstate as [[_ ->] | [_ [a ->]]]; simpl; lia |].
  split; [intros Hs; destruct Hstate as [[_ Hf] | [Hs' _]]; congruence |].
  split.
  { intros Hs. split.
    - destruct Hstate as [[Hs' _] | [_ Hf]]; [congruence | exact Hf].
    - intros random now0 now1. apply spin_ignored. exact Hs. }
  intros a now Hf Hnow.
  destruct (last_frame recipes Hn a now c Hc Hf Hnow) as (Hc' & Hs' & Hf').
  split; [exact Hs' |]. split; [exact Hf' |].
  intros random now0 now1 Hnow1.
  apply click_starts; assumption.
Qed.

Lemma spin_while_spinning_is_ignored_witness :
  spin wheelPageRecipes 0 1 1
    (step wheelPageRecipes (Click 0 0 0) (mounted wheelPageRecipes))
  = (step wheelPageRecipes (Click 0 0 0) (mounted wheelPageRecipes),
     JS.Normal).
Proof.
  assert (Hn : (2 <= length wheelPageRecipes <= 100)%nat) by (simpl; lia).
  destruct (spin_while_spinning_is_ignored wheelPageRecipes
              (step wheelPageRecipes (Click 0 0 0) (mounted wheelPageRecipes)))
    as (_ & _ & Hspin & _).
  - exact Hn.
  - apply reachable_step, reachable_mounted.
  - apply Hspin.
    apply (click_starts wheelPageRecipes Hn 0 0 0 (mounted wheelPageRecipes)).
    + apply mounted_consistent. exact Hn.
    + rewrite mounted_wheel by exact Hn. reflexivity.
    + lia.
Defined.

(** C6 as the spec states it fails: after one click the component is
    spinning, and a second call of [spin] raises nothing. *)
Lemma spin_while_spinning_raises_nothing :
  reachable wheelPageRecipes
    (step wheelPageRecipes (Click 0 0 0) (mounted wheelPageRecipes)) /\
  isSpinning
    (step wheelPageRecipes (Click 0 0 0) (mounted wheelPageRecipes)) = true /\
  ~ (exists e,
       snd (spin wheelPageRecipes 0 1 1
              (step wheelPageRecipes (Click 0 0 0) (mounted wheelPageRecipes)))
       = JS.Throw e).
Proof.
  assert (Hn : (2 <= length wheelPageRecipes <= 100)%nat) by (simpl; lia).
  destruct (click_starts wheelPageRecipes Hn 0 0 0 (mounted wheelPageRecipes))
    as [Hs _].
  - apply mounted_consistent. exact Hn.
  - rewrite mounted_wheel by exact Hn. reflexivity.
  - lia.
  - split; [apply reachable_step, reachable_mounted |].
    split; [exact Hs |].
    rewrite spin_ignored by exact Hs. intros [e He]. discriminate.
Qed.

(** C7, as the code has it.  A click on an idle component draws
    [maxRotations = 10 + Math.random ()] and runs [animate]; after every
    run of [animate], at whatever time [now], the rotation of the wheel
    is [maxRotations * PI * 2 * easeOut (progress)] with
    [progress = min ((now - startTime) / 10000, 1)] and
    [easeOut t = 1 - (1 - t) ^ 3].  The progress has no lower bound; it
    is the spec's [clamp] to [0, 1] when [now] is not before
    [startTime]. *)
Theorem rotation_is_eased_progress (recipes : list Recipe) (random : R)
  (now0 now1 : Z) (c : Component) :
  wheelContainerRef c <> None -> tickerRef c = true -> recipes <> [] ->
  isSpinning c = false ->
  spin recipes random now0 now1 c
  = animate recipes (mkAnimation now0 (10 + random)) now1
      (setWinningItem None (setIsSpinning true c)) /\
  (forall t, easeOut t = 1 - (1 - t) ^ 3) /\
  forall now c',
    wheelContainerRef c' <> None ->
    wheelRotation
      (fst (animate recipes (mkAnimation now0 (10 + random)) now c'))
    = Some ((10 + random) * PI * 2
            * easeOut (Rmin (IZR (now - now0) / 10000) 1)) /\
    ((now0 <= now)%Z ->
     Rmin (IZR (now - now0) / 10000) 1
     = clamp (IZR (now - now0) / 10000) 0 1).
Proof.
  intros Hw Ht Hne Hs.
  split; [apply spin_starts; assumption |].
  split; [reflexivity |].
  intros now c' Hw'.
  destruct (wheelContainerRef c') as [w |] eqn:Hwheel; [| congruence].
  split.
  - rewrite (animate_rotation recipes _ now c' w Hwheel). reflexivity.
  - intros Hnow.
    apply (progress_clamped (mkAnimation now0 (10 + random)) now Hnow).
Qed.

Lemma rotation_is_eased_progress_witness :
  wheelRotation
    (fst (animate wheelPageRecipes (mkAnimation 0 (10 + 1 / 2)) 5000
            (mounted wheelPageRecipes)))
  = Some ((10 + 1 / 2) * PI * 2 * easeOut (Rmin (IZR (5000 - 0) / 10000) 1)).
Proof.
  assert (Hn : (2 <= length wheelPageRecipes <= 100)%nat) by (simpl; lia).
  assert (Hw : wheelContainerRef (mounted wheelPageRecipes) <> None)
    by (rewrite mounted_wheel by exact Hn; discriminate).
  destruct (rotation_is_eased_progress wheelPageRecipes (1 / 2) 0 0
              (mounted wheelPageRecipes)) as (_ & _ & Hrot).
  - exact Hw.
  - rewrite mounted_wheel by exact Hn. reflexivity.
  - discriminate.
  - rewrite mounted_wheel by exact Hn. reflexivity.
  - apply Hrot. exact Hw.
Defined.

(** C7 as the spec states it fails: a run of [animate] whose
    [Date.now ()] is one second before [startTime] has the progress
    [-1/10], and turns the wheel backwards instead of leaving it at the
    rotation of the clamped progress 0. *)
Lemma rotation_before_start_is_not_clamped :
  wheelRotation
    (fst (animate wheelPageRecipes (mkAnimation 1000 (10 + 0)) 0
            (mounted wheelPageRecipes)))
  <> Some (maxRotations (mkAnimation 1000 (10 + 0)) * PI * 2
           * easeOut (clampedProgress (mkAnimation 1000 (10 + 0)) 0)).
Proof.
  pose proof PI_RGT_0 as Hpi.
  assert (Hn : (2 <= length wheelPageRecipes <= 100)%nat) by (simpl; lia).
  rewrite (animate_rotation wheelPageRecipes _ 0 _
             (mkWheel (forEachFrom 5 0 wheelPageRecipes) centerX centerY 0))
    by (rewrite mounted_wheel by exact Hn; reflexivity).
  unfold rotationAt. rewrite progress_min.
  unfold clampedProgress, clamp, spinDuration.
  simpl startTime. simpl maxRotations. simpl Z.sub.
  rewrite Rmin_left by lra.
  rewrite Rmax_left by lra.
  rewrite !easeOut_cube.
  intros Heq. injection Heq as Heq. lra.
Qed.

(** * Further properties of the component *)

(** ** Rotations and winners *)

Lemma normalizedRotation_turns (r : R) (k : Z) :
  normalizedRotation (r + IZR k * (PI * 2)) = normalizedRotation r.
Proof.
  pose proof (normalizedRotation_range r) as Hrange.
  rewrite (normalizedRotation_floor r) in *.
  set (q := Zfloor (r / (PI * 2))) in *.
  rewrite (normalizedRotation_eq (r + IZR k * (PI * 2)) (q + k));
    rewrite plus_IZR; lra.
Qed.

Lemma winningIndex_turns (r : R) (k : Z) (n : nat) :
  winningIndex (r + IZR k * (PI * 2)) n = winningIndex r n.
Proof.
  unfold winningIndex, slicesFromTop.
  rewrite normalizedRotation_turns. reflexivity.
Qed.

Lemma getWinningItem_turns (recipes : list Recipe) (r : R) (k : Z) :
  getWinningItem recipes (r + IZR k * (PI * 2)) = getWinningItem recipes r.
Proof.
  unfold getWinningItem. rewrite winningIndex_turns. reflexivity.
Qed.

Lemma indexZ_In {A : Type} (arr : list A) (z : Z) (x : A) :
  indexZ arr z = Some x -> In x arr.
Proof.
  unfold indexZ, lookup. destruct (z <? 0)%Z; [discriminate |].
  apply nth_error_In.
Qed.

(** A name that [getWinningItem] returns is the name of a recipe. *)
Lemma getWinningItem_member (recipes : list Recipe) (r : R) (s : string) :
  getWinningItem recipes r = Name s ->
  exists recipe, In recipe recipes /\ name recipe = s.
Proof.
  unfold getWinningItem. destruct recipes as [| r0 rest]; [discriminate |].
  destruct (indexZ (r0 :: rest) (winningIndex r (length (r0 :: rest))))
    as [recipe |] eqn:Hidx; [| discriminate].
  intros Hname. injection Hname as <-.
  exists recipe. split; [apply (indexZ_In _ _ _ Hidx) | reflexivity].
Qed.

Lemma getWinningItem_not_raised (recipes : list Recipe) (r : R) (e : JS.error) :
  getWinningItem recipes r <> Raised e.
Proof.
  destruct recipes as [| r0 rest]; [discriminate |].
  destruct (getWinningItem_name (r0 :: rest) r) as [recipe [_ ->]];
    discriminate.
Qed.

(** X3.  A border under the pointer resolves to one of the two slices
    that meet there: on the source's doubles, with between 2 and 100
    recipes and the start of slice [i] turned under the pointer, the
    winning index is [i] or the index of the slice before it around the
    wheel; which of the two depends on rounding. *)
Theorem border_resolves_to_adjacent_slice (n i : nat) :
  (2 <= n <= 100)%nat -> (i < n)%nat ->
  exists k,
    Double.toIndex
      (Double.winningIndex (Double.topPosition - Double.startAngle i n)%float
         n) = Some k /\
    (k = i \/ k = ((i + n - 1) mod n)%nat).
Proof.
  intros Hn Hi.
  assert (Hrange : (2 <= n < 2 + 99)%nat) by lia.
  pose proof (forallb_nested (fun n => seq 0 n)
                (fun n i =>
                   Double.indexIs
                     (Double.winningIndex
                        (Double.topPosition - Double.startAngle i n)%float n)
                     (fun k => (k =? i)%nat || (k =? (i + n - 1) mod n)%nat))
                2 99 borders_resolve n i Hrange (in_seq_0 _ _ Hi)) as Hcheck.
  cbv beta in Hcheck.
  apply indexIs_true in Hcheck as (k & Hk & Hcheck).
  exists k. split; [exact Hk |].
  apply orb_true_iff in Hcheck as [Hi' | Hi']; apply Nat.eqb_eq in Hi';
    [left | right]; exact Hi'.
Qed.

Lemma border_resolves_to_adjacent_slice_witness :
  (exists k,
     Double.toIndex
       (Double.winningIndex (Double.topPosition - Double.startAngle 1 3)%float
          3) = Some k /\
     (k = 1%nat \/ k = ((1 + 3 - 1) mod 3)%nat)) /\
  Double.toIndex
    (Double.winningIndex (Double.topPosition - Double.startAngle 1 3)%float 3)
  = Some 0%nat /\
  Double.toIndex
    (Double.winningIndex (Double.topPosition - Double.startAngle 1 4)%float 4)
  = Some 1%nat.
Proof.
  split; [apply (border_resolves_to_adjacent_slice 3 1); lia |].
  split; vm_compute; reflexivity.
Defined.

(** X4.  A wheel that has not turned: on the source's doubles, for 1 to
    100 recipes, the winning index at rotation 0 is the integer quotient
    of [3 * N] by 4, except for 84 recipes, where the quotient of the
    angles is rounded below 63 and the index is 62. *)
Theorem resting_index_on_doubles (n : nat) :
  (1 <= n <= 100)%nat ->
  Double.toIndex (Double.winningIndex 0 n)
  = Some (if (n =? 84)%nat then 62%nat else (3 * n / 4)%nat).
Proof.
  intros Hn.
  assert (Hin : In n (seq 1 100)) by (apply in_seq; lia).
  pose proof resting_indices as Hall.
  rewrite forallb_forall in Hall.
  apply Hall in Hin. cbv beta in Hin.
  apply indexIs_true in Hin as (k & Hk & Hcheck).
  apply Nat.eqb_eq in Hcheck. rewrite Hk, Hcheck. reflexivity.
Qed.

Lemma resting_index_on_doubles_witness :
  Double.toIndex (Double.winningIndex 0 84) = Some 62%nat /\
  Double.toIndex (Double.winningIndex 0 5) = Some 3%nat.
Proof.
  split.
  - apply (resting_index_on_doubles 84). lia.
  - apply (resting_index_on_doubles 5). lia.
Defined.

(** ** The winner of a spin *)

(** X6.  Every recipe can win: for each position [i] of [recipes] there
    is a value of [Math.random ()] in [0, 1) for which the final
    rotation [(10 + random) * PI * 2] makes [getWinningItem] return the
    name of [recipes[i]]. *)
Theorem every_recipe_can_win (recipes : list Recipe) (i : nat)
  (recipe : Recipe) :
  lookup recipes i = Some recipe ->
  exists random,
    0 <= random < 1 /\
    getWinningItem recipes ((10 + random) * PI * 2) = Name (name recipe).
Proof.
  intros Hi. pose proof two_pi_pos as HT.
  assert (Hlt : (i < length recipes)%nat)
    by (apply nth_error_Some; unfold lookup in Hi; congruence).
  assert (Hn : (0 < length recipes)%nat) by lia.
  pose proof (sliceAngle_pos _ Hn) as Hs.
  pose proof (sliceAngle_total _ Hn) as Ht.
  assert (Hi1 : INR i + 1 <= INR (length recipes))
    by (rewrite <- S_INR; apply le_INR; lia).
  assert (Hi0 : 0 <= INR i) by apply pos_INR.
  set (a := (INR i + 1 / 2) * sliceAngle (length recipes)).
  assert (Ha : INR i * sliceAngle (length recipes) <= a
               < (INR i + 1) * sliceAngle (length recipes))
    by (unfold a; lra).
  assert (Hhi : (INR i + 1) * sliceAngle (length recipes) <= PI * 2)
    by (rewrite <- Ht; apply Rmult_le_compat_r; lra).
  assert (Hlo : 0 <= INR i * sliceAngle (length recipes))
    by (apply Rmult_le_pos; lra).
  pose proof (proj2 (getWinningItem_top_minus recipes a i recipe Hi Ha))
    as Hwin.
  destruct (Rle_dec a topPosition) as [Hle | Hgt].
  - exists ((topPosition - a) / (PI * 2)). split.
    + apply quotient_bounds; [exact HT | unfold topPosition in *; lra].
    + replace ((10 + (topPosition - a) / (PI * 2)) * PI * 2)
        with (topPosition - a + IZR 10 * (PI * 2)) by (field; lra).
      rewrite getWinningItem_turns. exact Hwin.
  - exists ((topPosition - a + PI * 2) / (PI * 2)). split.
    + apply quotient_bounds; [exact HT | unfold topPosition in *; lra].
    + replace ((10 + (topPosition - a + PI * 2) / (PI * 2)) * PI * 2)
        with (topPosition - a + IZR 11 * (PI * 2)) by (field; lra).
      rewrite getWinningItem_turns. exact Hwin.
Qed.

Lemma every_recipe_can_win_witness :
  exists random,
    0 <= random < 1 /\
    getWinningItem wheelPageRecipes ((10 + random) * PI * 2) = Name "Steak".
Proof.
  apply (every_recipe_can_win wheelPageRecipes 4 (mkRecipe "Steak")).
  reflexivity.
Defined.

(** ** The rotation during a spin *)

Lemma progress_monotone (a : Animation) (now now' : Z) :
  (now <= now')%Z -> progress a now <= progress a now'.
Proof.
  intros Hnow. rewrite !progress_min.
  apply Rle_min_compat_r.
  assert (IZR (now - startTime a) <= IZR (now' - startTime a))
    by (apply IZR_le; lia).
  lra.
Qed.

(** X7.  The wheel never turns back during a spin: with
    [maxRotations >= 0] the rotation that [animate] sets does not
    decrease from one reading of the clock to a later one and never
    exceeds [maxRotations * PI * 2]; it is not negative once the clock
    has reached [startTime], and it is exactly [maxRotations * PI * 2]
    from [startTime + 10000] on. *)
Theorem rotation_never_turns_back (a : Animation) (now now' : Z) :
  0 <= maxRotations a -> (now <= now')%Z ->
  rotationAt a now <= rotationAt a now' /\
  rotationAt a now' <= maxRotations a * PI * 2 /\
  ((startTime a <= now)%Z -> 0 <= rotationAt a now) /\
  ((startTime a + 10000 <= now')%Z ->
   rotationAt a now' = maxRotations a * PI * 2).
Proof.
  intros Hmax Hnow. pose proof PI_RGT_0 as Hpi.
  assert (Hfactor : 0 <= maxRotations a * PI * 2).
  { replace (maxRotations a * PI * 2) with (maxRotations a * (PI * 2)) by ring.
    apply Rmult_le_pos; lra. }
  assert (Hone : easeOut 1 = 1) by (rewrite easeOut_cube; ring).
  assert (Hzero : easeOut 0 = 0) by (rewrite easeOut_cube; ring).
  unfold rotationAt. split.
  - apply Rmult_le_compat_l; [exact Hfactor |].
    apply easeOut_monotone, progress_monotone. exact Hnow.
  - split.
    + rewrite <- (Rmult_1_r (maxRotations a * PI * 2)) at 2.
      apply Rmult_le_compat_l; [exact Hfactor |].
      rewrite <- Hone. apply easeOut_monotone, progress_le_1.
    + split.
      * intros Hstart. apply Rmult_le_pos; [exact Hfactor |].
        rewrite <- Hzero. apply easeOut_monotone.
        rewrite progress_clamped by exact Hstart.
        unfold clampedProgress, clamp. apply Rmax_l.
      * intros Hend. rewrite progress_done by exact Hend.
        rewrite Hone. ring.
Qed.

Lemma rotation_never_turns_back_witness :
  rotationAt (mkAnimation 0 10) 2500 <= rotationAt (mkAnimation 0 10) 5000.
Proof.
  apply (rotation_never_turns_back (mkAnimation 0 10) 2500 5000).
  - simpl. lra.
  - lia.
Defined.

(** ** The component over its events *)

Lemma animate_finished (recipes : list Recipe) (a : Animation) (now : Z)
  (c : Component) (s : string) :
  ~ progress a now < 1 ->
  getWinningItem recipes (rotationAt a now) = Name s ->
  animate recipes a now c
  = (setIsSpinning false
       (setWinningItem (Some s) (setRotation (rotationAt a now) c)),
     JS.Normal).
Proof.
  intros Hp Hwin. unfold animate.
  destruct (Rlt_dec (progress a now) 1) as [Hlt | _]; [contradiction |].
  rewrite Hwin. reflexivity.
Qed.

(** What a run of [animate] does to the state [isSpinning] and
    [winningItem]. *)
Lemma animate_state (recipes : list Recipe) (a : Animation) (now : Z)
  (c : Component) :
  (isSpinning (fst (animate recipes a now c)) = isSpinning c /\
   winningItem (fst (animate recipes a now c)) = winningItem c) \/
  (isSpinning (fst (animate recipes a now c)) = false /\
   (winningItem (fst (animate recipes a now c)) = None \/
    exists s,
      getWinningItem recipes (rotationAt a now) = Name s /\
      winningItem (fst (animate recipes a now c)) = Some s)).
Proof.
  destruct (setRotation_fields (rotationAt a now) c)
    as (_ & Hw & Hs & _ & _).
  unfold animate.
  destruct (Rlt_dec (progress a now) 1) as [_ | _].
  - left. simpl. split; assumption.
  - destruct (getWinningItem recipes (rotationAt a now)) as [| s | e] eqn:Hwin.
    + right. simpl. split; [reflexivity | left; reflexivity].
    + right. simpl. split; [reflexivity |].
      right. exists s. split; reflexivity.
    + left. simpl. split; assumption.
Qed.

Lemma mounted_state (recipes : list Recipe) :
  isSpinning (mounted recipes) = false /\
  winningItem (mounted recipes) = None /\
  frames (mounted recipes) = [].
Proof.
  unfold mounted, createWheel.
  destruct (negb (appRef created) || (length recipes <? 2)%nat
            || (100 <? length recipes)%nat);
    simpl; repeat split; reflexivity.
Qed.

(** Whatever the recipes: no winner is stored during a spin, and a
    stored winner is the name of a recipe. *)
Lemma reachable_winner (recipes : list Recipe) (c : Component) :
  reachable recipes c ->
  (isSpinning c = true -> winningItem c = None) /\
  (forall s, winningItem c = Some s ->
     exists recipe, In recipe recipes /\ name recipe = s).
Proof.
  induction 1 as [| e c _ [IHspin IHwin]].
  - destruct (mounted_state recipes) as (_ & Hw & _). rewrite Hw.
    split; [reflexivity | discriminate].
  - assert (Hanimate : forall a now c0,
              (isSpinning c0 = true -> winningItem c0 = None) ->
              (forall s, winningItem c0 = Some s ->
                 exists recipe, In recipe recipes /\ name recipe = s) ->
              (isSpinning (fst (animate recipes a now c0)) = true ->
               winningItem (fst (animate recipes a now c0)) = None) /\
              (forall s, winningItem (fst (animate recipes a now c0)) = Some s ->
                 exists recipe, In recipe recipes /\ name recipe = s)).
    { intros a now c0 Hspin Hwin.
      destruct (animate_state recipes a now c0)
        as [[-> ->] | [-> [-> | [s [Hs ->]]]]].
      - split; assumption.
      - split; [reflexivity | discriminate].
      - split; [discriminate |].
        intros s' Hs'. injection Hs' as <-.
        apply (getWinningItem_member recipes _ s Hs). }
    unfold step. destruct e as [random now0 now1 | now]; simpl handle.
    + unfold spin. destruct (wheelContainerRef c); [| split; assumption].
      destruct (negb (tickerRef c) || (length recipes =? 0)%nat || isSpinning c);
        [split; assumption |].
      apply Hanimate; simpl; [reflexivity | discriminate].
    + destruct (frames c) as [| a rest]; [split; assumption |].
      apply Hanimate; simpl; assumption.
Qed.

(** The frame at or after [startTime + 10000]: the component it leaves
    and the winner it stores. *)
Lemma last_frame_winner (recipes : list Recipe) (a : Animation) (now : Z)
  (c : Component) :
  recipes <> [] -> frames c = [a] -> (startTime a + 10000 <= now)%Z ->
  exists recipe,
    In recipe recipes /\
    getWinningItem recipes (maxRotations a * PI * 2) = Name (name recipe) /\
    step recipes (Frame now) c
    = setIsSpinning false
        (setWinningItem (Some (name recipe))
           (setRotation (maxRotations a * PI * 2) (setFrames [] c))).
Proof.
  intros Hne Hf Hnow.
  assert (Hdone : progress a now = 1) by (apply progress_done; exact Hnow).
  assert (Hge : ~ progress a now < 1) by lra.
  assert (Hrot : rotationAt a now = maxRotations a * PI * 2)
    by (unfold rotationAt; rewrite Hdone, easeOut_cube; ring).
  destruct (getWinningItem_name recipes (rotationAt a now) Hne)
    as [recipe [Hidx Hwin]].
  exists recipe. split; [apply (indexZ_In _ _ _ Hidx) |].
  split; [rewrite <- Hrot; exact Hwin |].
  unfold step. simpl handle. rewrite Hf.
  rewrite (animate_finished recipes a now _ (name recipe) Hge Hwin), Hrot.
  reflexivity.
Qed.

(** X8.  During a spin no winner is stored or shown: in every
    component reached from the mounted one, whatever the recipes,
    [isSpinning] implies that [winningItem] is [null], that the view has
    no winner line, and that the button is disabled and reads
    [Spinning...]. *)
Theorem no_winner_while_spinning (recipes : list Recipe) (c : Component) :
  reachable recipes c -> isSpinning c = true ->
  winningItem c = None /\
  winnerLine (render recipes c) = None /\
  buttonDisabled (render recipes c) = true /\
  buttonText (render recipes c) = "Spinning...".
Proof.
  intros Hreach Hs.
  destruct (reachable_winner recipes c Hreach) as [Hspin _].
  pose proof (Hspin Hs) as Hw.
  unfold render. simpl. rewrite Hw, Hs. repeat split; reflexivity.
Qed.

Lemma no_winner_while_spinning_witness :
  winningItem
    (step wheelPageRecipes (Click 0 0 0) (mounted wheelPageRecipes)) = None.
Proof.
  assert (Hn : (2 <= length wheelPageRecipes <= 100)%nat) by (simpl; lia).
  apply (no_winner_while_spinning wheelPageRecipes
           (step wheelPageRecipes (Click 0 0 0) (mounted wheelPageRecipes))).
  - apply reachable_step, reachable_mounted.
  - apply (click_starts wheelPageRecipes Hn 0 0 0 (mounted wheelPageRecipes)).
    + apply mounted_consistent. exact Hn.
    + rewrite mounted_wheel by exact Hn. reflexivity.
    + lia.
Defined.

(** X9.  A stored winner is always the name of one of the recipes, and
    the component is then not spinning: in every component reached from
    the mounted one, [winningItem = s] gives a recipe of [recipes] named
    [s]. *)
Theorem stored_winner_is_a_recipe (recipes : list Recipe) (c : Component)
  (s : string) :
  reachable recipes c -> winningItem c = Some s ->
  (exists recipe, In recipe recipes /\ name recipe = s) /\
  isSpinning c = false.
Proof.
  intros Hreach Hw.
  destruct (reachable_winner recipes c Hreach) as [Hspin Hwin].
  split; [apply Hwin; exact Hw |].
  destruct (isSpinning c); [| reflexivity].
  rewrite Hspin in Hw by reflexivity. discriminate.
Qed.

Lemma stored_winner_is_a_recipe_witness :
  (exists recipe, In recipe wheelPageRecipes /\ name recipe = "Pasta") /\
  isSpinning
    (step wheelPageRecipes (Frame 10000)
       (step wheelPageRecipes (Click (1 / 2) 0 0) (mounted wheelPageRecipes)))
  = false.
Proof.
  pose proof PI_RGT_0 as Hpi.
  assert (Hn : (2 <= length wheelPageRecipes <= 100)%nat) by (simpl; lia).
  assert (Hc : consistent (mounted wheelPageRecipes))
    by (apply mounted_consistent; exact Hn).
  assert (Hidle : isSpinning (mounted wheelPageRecipes) = false)
    by (rewrite mounted_wheel by exact Hn; reflexivity).
  apply (stored_winner_is_a_recipe wheelPageRecipes).
  - apply reachable_step, reachable_step, reachable_mounted.
  - destruct (last_frame_winner wheelPageRecipes
                (mkAnimation 0 (10 + 1 / 2)) 10000
                (step wheelPageRecipes (Click (1 / 2) 0 0)
                   (mounted wheelPageRecipes)))
      as (recipe & _ & Hwin & ->).
    + discriminate.
    + apply (click_starts wheelPageRecipes Hn (1 / 2) 0 0 _ Hc Hidle). lia.
    + simpl. lia.
    + simpl. f_equal.
      destruct (getWinningItem_top_minus wheelPageRecipes (PI / 2) 1
                  (mkRecipe "Pasta") eq_refl) as [_ Hpasta];
        [unfold sliceAngle; simpl; lra |].
      rewrite <- (getWinningItem_turns _ _ 10) in Hpasta.
      replace (topPosition - PI / 2 + IZR 10 * (PI * 2))
        with (maxRotations (mkAnimation 0 (10 + 1 / 2)) * PI * 2) in Hpasta
        by (unfold topPosition; simpl; lra).
      rewrite Hpasta in Hwin. injection Hwin as <-. reflexivity.
Defined.

(** X10.  No event handler throws: for any recipes, any component and
    any event, a click or an animation frame, the call completes
    normally; in particular [getWinningItem] never reads [.name] of
    [undefined]. *)
Theorem no_event_throws (recipes : list Recipe) (e : event) (c : Component) :
  snd (handle recipes e c) = JS.Normal /\
  forall r err, getWinningItem recipes r <> Raised err.
Proof.
  assert (Hanimate : forall a now c0,
            snd (animate recipes a now c0) = JS.Normal).
  { intros a now c0. unfold animate.
    destruct (Rlt_dec (progress a now) 1); [reflexivity |].
    destruct (getWinningItem recipes (rotationAt a now)) as [| s | err] eqn:Hw;
      [reflexivity | reflexivity |].
    exfalso. apply (getWinningItem_not_raised recipes _ err Hw). }
  split; [| intros r err; apply getWinningItem_not_raised].
  destruct e as [random now0 now1 | now]; simpl.
  - unfold spin. destruct (wheelContainerRef c); [| reflexivity].
    destruct (negb (tickerRef c) || (length recipes =? 0)%nat || isSpinning c);
      [reflexivity | apply Hanimate].
  - destruct (frames c); [reflexivity | apply Hanimate].
Qed.



(** X12.  A frame before the end keeps the spin going: when the one
    pending frame runs before [startTime + 10000], the wheel is turned
    to [rotationAt], the same animation is pending again, and
    [isSpinning] and [winningItem] are as they were. *)
Theorem early_frame_continues (recipes : list Recipe) (a : Animation)
  (now : Z) (c : Component) :
  wheelContainerRef c <> None -> frames c = [a] ->
  (now < startTime a + 10000)%Z ->
  wheelRotation (step recipes (Frame now) c) = Some (rotationAt a now) /\
  frames (step recipes (Frame now) c) = [a] /\
  isSpinning (step recipes (Frame now) c) = isSpinning c /\
  winningItem (step recipes (Frame now) c) = winningItem c.
Proof.
  intros Hw Hf Hnow.
  destruct (wheelContainerRef c) as [w |] eqn:Hwheel; [| congruence].
  pose proof (animate_rotation recipes a now (setFrames [] c) w Hwheel) as Hr.
  unfold step. simpl handle. rewrite Hf.
  rewrite animate_running in * by (apply progress_running; exact Hnow).
  destruct (setRotation_fields (rotationAt a now) (setFrames [] c))
    as (_ & Hwin & Hs & Hf' & _).
  split; [exact Hr |]. unfold requestAnimationFrame. simpl.
  rewrite Hf'. repeat split; assumption.
Qed.

Lemma early_frame_continues_witness :
  frames
    (step wheelPageRecipes (Frame 5000)
       (step wheelPageRecipes (Click (1 / 2) 0 0) (mounted wheelPageRecipes)))
  = [mkAnimation 0 (10 + 1 / 2)].
Proof.
  assert (Hn : (2 <= length wheelPageRecipes <= 100)%nat) by (simpl; lia).
  assert (Hc : consistent (mounted wheelPageRecipes))
    by (apply mounted_consistent; exact Hn).
  assert (Hidle : isSpinning (mounted wheelPageRecipes) = false)
    by (rewrite mounted_wheel by exact Hn; reflexivity).
  apply (early_frame_continues wheelPageRecipes (mkAnimation 0 (10 + 1 / 2))
           5000).
  - apply (step_consistent wheelPageRecipes Hn), Hc.
  - apply (click_starts wheelPageRecipes Hn (1 / 2) 0 0 _ Hc Hidle). lia.
  - simpl. lia.
Defined.

(** ** Invalid counts, the button and the drawing *)

Lemma mounted_invalid (recipes : list Recipe) :
  (length recipes < 2 \/ 100 < length recipes)%nat ->
  mounted recipes = created.
Proof.
  intros Hn. unfold mounted. rewrite createWheel_guard by exact Hn.
  reflexivity.
Qed.

Lemma created_ignores_events (recipes : list Recipe) (e : event) :
  handle recipes e created = (created, JS.Normal).
Proof. destruct e; reflexivity. Qed.

(** X13.  With fewer than 2 or more than 100 recipes the wheel never
    exists and nothing ever spins: every component reached from the
    mounted one is the created one, every click and every frame leaves
    it unchanged, and yet the button is disabled only without any
    recipe. *)
Theorem invalid_count_never_spins (recipes : list Recipe) (c : Component) :
  (length recipes < 2 \/ 100 < length recipes)%nat ->
  reachable recipes c ->
  c = created /\
  (forall e, handle recipes e c = (c, JS.Normal)) /\
  buttonDisabled (render recipes c) = (length recipes =? 0)%nat.
Proof.
  intros Hn Hreach.
  assert (Hc : c = created).
  { induction Hreach as [| e c _ IH].
    - apply mounted_invalid. exact Hn.
    - rewrite IH. unfold step. rewrite created_ignores_events. reflexivity. }
  subst c. split; [reflexivity |].
  split; [intros e; apply created_ignores_events | reflexivity].
Qed.

Lemma invalid_count_never_spins_witness :
  step [mkRecipe "A"] (Click 0 0 0) (mounted [mkRecipe "A"]) = created /\
  buttonDisabled
    (render [mkRecipe "A"]
       (step [mkRecipe "A"] (Click 0 0 0) (mounted [mkRecipe "A"]))) = false.
Proof.
  destruct (invalid_count_never_spins [mkRecipe "A"]
              (step [mkRecipe "A"] (Click 0 0 0) (mounted [mkRecipe "A"])))
    as (Hc & _ & Hbutton).
  - left. simpl. lia.
  - apply reachable_step, reachable_mounted.
  - split; [exact Hc | exact Hbutton].
Defined.

(** X14.  With between 2 and 100 recipes the button tells the truth: in
    every component reached from the mounted one it is disabled exactly
    while [isSpinning], and a click on the enabled button starts a spin,
    clears the winner and disables the button. *)
Theorem enabled_button_starts_spin (recipes : list Recipe) (c : Component) :
  (2 <= length recipes <= 100)%nat ->
  reachable recipes c ->
  buttonDisabled (render recipes c) = isSpinning c /\
  (buttonDisabled (render recipes c) = false ->
   forall random now0 now1,
     (now1 < now0 + 10000)%Z ->
     isSpinning (step recipes (Click random now0 now1) c) = true /\
     winningItem (step recipes (Click random now0 now1) c) = None /\
     buttonDisabled (render recipes (step recipes (Click random now0 now1) c))
     = true).
Proof.
  intros Hn Hreach.
  assert (Hlen : (length recipes =? 0)%nat = false)
    by (apply Nat.eqb_neq; lia).
  assert (Hbutton : forall c0, buttonDisabled (render recipes c0) = isSpinning c0).
  { intros c0. unfold render. simpl. rewrite Hlen. apply orb_false_r. }
  split; [apply Hbutton |].
  rewrite Hbutton. intros Hidle random now0 now1 Hnow.
  pose proof (reachable_consistent recipes Hn c Hreach) as Hc.
  destruct (click_starts recipes Hn random now0 now1 c Hc Hidle Hnow)
    as [Hs _].
  split; [exact Hs |]. split.
  - apply (reachable_winner recipes); [| exact Hs].
    apply reachable_step. exact Hreach.
  - rewrite Hbutton. exact Hs.
Qed.

Lemma enabled_button_starts_spin_witness :
  buttonDisabled (render wheelPageRecipes (mounted wheelPageRecipes))
  = isSpinning (mounted wheelPageRecipes).
Proof.
  apply (enabled_button_starts_spin wheelPageRecipes).
  - simpl. lia.
  - apply reachable_mounted.
Defined.

(** ** createWheel run again *)

Lemma createWheelEach_snoc (arrays : list (list Recipe))
  (recipes : list Recipe) :
  createWheelEach (arrays ++ [recipes])
  = fst (createWheel recipes (createWheelEach arrays)).
Proof. unfold createWheelEach. rewrite fold_left_app. reflexivity. Qed.

Lemma createWheelEach_app (arrays : list (list Recipe)) :
  appRef (createWheelEach arrays) = true.
Proof.
  induction arrays as [| recipes arrays IH] using rev_ind; [reflexivity |].
  rewrite createWheelEach_snoc. unfold createWheel. rewrite IH.
  destruct (negb true || (length recipes <? 2)%nat
            || (100 <? length recipes)%nat); simpl; exact IH.
Qed.

Lemma createWheel_valid (recipes : list Recipe) (c : Component) :
  appRef c = true -> validCount recipes = true ->
  createWheel recipes c
  = (addTicker
       (setWheel
          (Some (mkWheel (forEachFrom (length recipes) 0 recipes)
                         centerX centerY 0)) c), JS.Normal).
Proof.
  intros Happ Hvalid. unfold createWheel, validCount in *.
  rewrite Happ. simpl negb. rewrite orb_false_l.
  apply negb_true_iff in Hvalid. rewrite Hvalid. reflexivity.
Qed.

Lemma createWheel_invalid (recipes : list Recipe) (c : Component) :
  validCount recipes = false -> createWheel recipes c = (c, JS.Normal).
Proof.
  intros Hvalid. unfold createWheel, validCount in *.
  apply negb_false_iff in Hvalid.
  rewrite <- orb_assoc, Hvalid, orb_true_r. reflexivity.
Qed.

(** X16.  [createWheel] run for one array of recipes after another:
    a run with a valid count replaces the wheel by the slices of its own
    recipes at rotation 0, whatever was shown or turned before, while a
    run with an invalid count changes nothing, so the wheel of the
    earlier recipes stays; the wheel is one at most, but every valid run
    adds a ticker, so the stage holds as many tickers as there were
    valid runs. *)
Theorem wheel_replaced_tickers_pile_up (arrays : list (list Recipe))
  (recipes : list Recipe) :
  stageTickers (createWheelEach arrays)
    = length (filter validCount arrays) /\
  (validCount recipes = true ->
   wheelContainerRef (createWheelEach (arrays ++ [recipes]))
   = Some (mkWheel (forEachFrom (length recipes) 0 recipes)
                   centerX centerY 0)) /\
  (validCount recipes = false ->
   createWheelEach (arrays ++ [recipes]) = createWheelEach arrays).
Proof.
  split.
  - induction arrays as [| rs arrays IH] using rev_ind; [reflexivity |].
    rewrite createWheelEach_snoc, filter_app, length_app. simpl.
    destruct (validCount rs) eqn:Hvalid.
    + rewrite createWheel_valid
        by (try apply createWheelEach_app; exact Hvalid).
      simpl. rewrite IH. lia.
    + rewrite createWheel_invalid by exact Hvalid. simpl. rewrite IH. lia.
  - split; intros Hvalid; rewrite createWheelEach_snoc.
    + rewrite createWheel_valid
        by (try apply createWheelEach_app; exact Hvalid).
      reflexivity.
    + rewrite createWheel_invalid by exact Hvalid. reflexivity.
Qed.

Lemma wheel_replaced_tickers_pile_up_witness :
  stageTickers
    (createWheelEach [wheelPageRecipes; [mkRecipe "A"]; labelsABCD]) = 2%nat /\
  createWheelEach ([wheelPageRecipes] ++ [[mkRecipe "A"]])
  = createWheelEach [wheelPageRecipes].
Proof.
  split.
  - apply (wheel_replaced_tickers_pile_up
             [wheelPageRecipes; [mkRecipe "A"]; labelsABCD] []).
  - apply (wheel_replaced_tickers_pile_up [wheelPageRecipes] [mkRecipe "A"]).
    reflexivity.
Defined.
